(** * HashMover: the naming-collision resolution of [script.py]

    A shallow embedding of [get_unique_path], [compute_file_hash] and the
    per-file loop of [main], together with the parts of the Python runtime
    they call ([str] slicing and case mapping, [os.path.splitext],
    [pathlib]'s [name] and [suffix], [zlib.crc32], [hashlib.new]).

    Conventions.
    - A Python [str] is a [string]; case mapping acts on the ASCII letters
      and leaves every other byte alone.
    - A Python [int] is a [Z]; a slice bound known to be non-negative is a
      [nat].
    - The target directory is the finite set of the entry names for which
      [dest_path.exists()] answers [True] ([gset string]), and a
      destination path is the name of the entry inside the directory.
    - A file's bytes are a [list byte].
    - The script is given twice. [get_unique_path], [prefix_loop],
      [name_destination] and [main] are the script among calls that
      answer: every existence test is membership, and only hashing and
      placement can raise. Module [Full] is the script among calls that
      can fail: [exists()], [is_file()] and [print] can raise as well,
      and a placement changes what the existence test sees as the
      surroundings ([Env]) say. [full_name_destination_refines] and
      [full_main_plain] relate the two. *)

From Stdlib Require Import ZArith Ascii String.
From Stdlib.Strings Require Import Byte.
From stdpp Require Import gmap strings list pretty.
From Equations Require Import Equations.

Open Scope string_scope.
Open Scope nat_scope.

(** ** Python [str] primitives *)

Module Py.

Definition ascii_lower (c : ascii) : ascii :=
  let n := N_of_ascii c in
  if ((65 <=? n) && (n <=? 90))%N then ascii_of_N (n + 32) else c.

Definition ascii_upper (c : ascii) : ascii :=
  let n := N_of_ascii c in
  if ((97 <=? n) && (n <=? 122))%N then ascii_of_N (n - 32) else c.

Fixpoint str_map (f : ascii → ascii) (s : string) : string :=
  match s with
  | EmptyString => EmptyString
  | String c s' => String (f c) (str_map f s')
  end.

(** [s.lower()] and [s.upper()]. *)
Definition lower : string → string := str_map ascii_lower.
Definition upper : string → string := str_map ascii_upper.

(** [s[:n]] for [n >= 0]. *)
Fixpoint slice_to (n : nat) (s : string) : string :=
  match n, s with
  | S n', String c s' => String c (slice_to n' s')
  | _, _ => EmptyString
  end.

(** [s[n:]] for [n >= 0]. *)
Fixpoint slice_from (n : nat) (s : string) : string :=
  match n, s with
  | S n', String _ s' => slice_from n' s'
  | _, _ => s
  end.

(** [s.rfind(c)] for a one-character needle: the highest index holding
    [c], or [-1]. *)
Fixpoint rfind (c : ascii) (s : string) : Z :=
  match s with
  | EmptyString => -1
  | String a s' =>
      let r := rfind c s' in
      if (0 <=? r)%Z then (r + 1)%Z
      else if Ascii.eqb a c then 0%Z else (-1)%Z
  end.

(** [s.startswith('.')]. *)
Definition startswith_dot (s : string) : bool :=
  match s with
  | String c _ => Ascii.eqb c "."
  | EmptyString => false
  end.

(** [c in s]. *)
Fixpoint contains (c : ascii) (s : string) : bool :=
  match s with
  | EmptyString => false
  | String a s' => Ascii.eqb a c || contains c s'
  end.

(** Every character of [s] is [c]. *)
Fixpoint all_are (c : ascii) (s : string) : bool :=
  match s with
  | EmptyString => true
  | String a s' => Ascii.eqb a c && all_are c s'
  end.

(** [str(n)] for an integer. *)
Definition str (n : Z) : string := pretty n.

End Py.

(** ** [os.path.splitext] and [pathlib] (POSIX flavour) *)

Module PosixPath.
Import Py.

(** [genericpath._splitext(p, '/', None, '.')]: the extension starts at
    the last dot of the final component, unless that component has
    nothing but dots before it. The scan over the leading dots is the
    test that [p[sepIndex+1:dotIndex]] holds dots only. *)
Definition splitext (p : string) : string * string :=
  let sepIndex := rfind "/" p in
  let dotIndex := rfind "." p in
  if (sepIndex <? dotIndex)%Z then
    let filenameIndex := Z.to_nat (sepIndex + 1) in
    let lead := slice_to (Z.to_nat dotIndex - filenameIndex)
                         (slice_from filenameIndex p) in
    if all_are "." lead then (p, "")
    else (slice_to (Z.to_nat dotIndex) p, slice_from (Z.to_nat dotIndex) p)
  else (p, "").

(** [PurePath.name]: the final path component. *)
Definition name (path : string) : string :=
  slice_from (Z.to_nat (rfind "/" path + 1)) path.

(** [PurePath.parent]: the path without its final component. *)
Definition parent (path : string) : string :=
  let i := rfind "/" path in
  if (0 <? i)%Z then slice_to (Z.to_nat i) path
  else if (i =? 0)%Z then "/" else ".".

(** [PurePath.suffix], as [pathlib] defines it up to Python 3.13:
    [i = name.rfind('.'); name[i:] if 0 < i < len(name) - 1 else '']. *)
Definition suffix (path : string) : string :=
  let nm := name path in
  let i := rfind "." nm in
  if ((0 <? i) && (i <? Z.of_nat (String.length nm) - 1))%Z
  then slice_from (Z.to_nat i) nm
  else "".

End PosixPath.

(** ** Exceptions and results *)

Inductive exn : Type :=
| ValueError (msg : string)
| TypeError (msg : string)
| OSError (msg : string).

Inductive result (A : Type) : Type :=
| Ok (a : A)
| Raise (e : exn).
Arguments Ok {A} a.
Arguments Raise {A} e.

#[global] Instance result_bind : MBind result := λ A B k r,
  match r with
  | Ok a => k a
  | Raise e => Raise e
  end.

(** ** [zlib.crc32] *)

Module Zlib.

(** One bit of the reflected CRC-32 (polynomial [0xEDB88320]). *)
Definition crc32_bit (c : Z) : Z :=
  if Z.testbit c 0 then Z.lxor (Z.shiftr c 1) 0xEDB88320 else Z.shiftr c 1.

Definition crc32_byte (c : Z) (b : byte) : Z :=
  Nat.iter 8 crc32_bit (Z.lxor c (Z.of_N (Byte.to_N b))).

(** [zlib.crc32(data, value)]: the running checksum [value] is taken as
    an unsigned 32-bit number, complemented, folded over the bytes and
    complemented again. *)
Definition crc32 (data : list byte) (value : Z) : Z :=
  Z.lxor (fold_left crc32_byte data
            (Z.lxor (Z.land value 0xffffffff) 0xffffffff))
         0xffffffff.

End Zlib.

(** ** [hashlib] *)

Module Hashlib.

(** What a Python installation contributes: the names its OpenSSL build
    adds to the guaranteed ones, which of those names it implements as
    extendable-output functions ([shake128] and the like), and the
    digest function behind each name. *)
Record Provider : Type := {
  openssl_has : string → bool;
  openssl_xof : string → bool;
  digest_of : string → list byte → list byte
}.

(** [hashlib.algorithms_guaranteed]. *)
Definition algorithms_guaranteed : list string :=
  [ "blake2b"; "blake2s"; "md5"; "sha1"; "sha224"; "sha256"; "sha384";
    "sha512"; "sha3_224"; "sha3_256"; "sha3_384"; "sha3_512";
    "shake_128"; "shake_256" ].

(** A hash object: its algorithm and the bytes fed so far. *)
Record hash_obj : Type := { alg_name : string; fed : list byte }.

(** [hashlib.new(name)]; [None] is its [ValueError]. *)
Definition new (lib : Provider) (name : string) : option hash_obj :=
  if bool_decide (name ∈ algorithms_guaranteed) || openssl_has lib name
  then Some {| alg_name := name; fed := [] |}
  else None.

Definition update (h : hash_obj) (chunk : list byte) : hash_obj :=
  {| alg_name := alg_name h; fed := fed h ++ chunk |}.

Definition hex_digit (n : N) : ascii :=
  if (n <? 10)%N then ascii_of_N (48 + n) else ascii_of_N (87 + n).

Definition hex_byte (b : byte) : string :=
  let n := Byte.to_N b in
  String (hex_digit (n / 16)) (String (hex_digit (n mod 16)) EmptyString).

Fixpoint hex (bs : list byte) : string :=
  match bs with
  | [] => EmptyString
  | b :: bs' => hex_byte b +:+ hex bs'
  end.

(** The names behind which an extendable-output function stands: the
    two guaranteed ones, and among the names that only OpenSSL adds
    those that it implements as such. *)
Definition is_xof (lib : Provider) (name : string) : bool :=
  bool_decide (name ∈ ["shake_128"; "shake_256"])
  || (negb (bool_decide (name ∈ algorithms_guaranteed)) && openssl_xof lib name).

(** [h.hexdigest()] with no argument; the extendable-output functions
    want a length and raise [TypeError] without one. *)
Definition hexdigest (lib : Provider) (h : hash_obj) : result string :=
  if is_xof lib (alg_name h)
  then Raise (TypeError "hexdigest() missing required argument 'length' (pos 1)")
  else Ok (hex (digest_of lib (alg_name h) (fed h))).

End Hashlib.

(** ** [script.py] *)

Import Py PosixPath.

(** The [while True] loop of [get_unique_path], with [base] and [ext]
    fixed, among existence tests that answer: [dest_dir] holds the names
    for which [exists()] answers [True]. [fuel] bounds the number of
    tests; [None] means the bound was reached. [Full.get_unique_path_loop]
    is the loop among tests that can raise. *)
Fixpoint get_unique_path_loop (dest_dir : gset string) (base ext : string)
    (fuel : nat) (filename : string) (counter : Z) : option string :=
  match fuel with
  | O => None
  | S fuel' =>
      if bool_decide (filename ∈ dest_dir)
      then get_unique_path_loop dest_dir base ext fuel'
             (base +:+ "_" +:+ str counter +:+ ext) (counter + 1)%Z
      else Some filename
  end.

(** [get_unique_path(dest_dir, filename)]. One more test than the
    directory has entries is always enough ([get_unique_path_fuel]), so
    the default is never taken. *)
Definition get_unique_path (dest_dir : gset string) (filename : string) : string :=
  let '(base, ext) := splitext filename in
  default filename
    (get_unique_path_loop dest_dir base ext (S (size dest_dir)) filename 1).

(** Block size of the streamed reads. *)
Definition BLOCK : nat := 4096.

(** [iter(lambda: f.read(4096), b'')]: the blocks of a file, up to the
    first empty read. *)
Equations? read_chunks (data : list byte) : list (list byte)
  by wf (length data) lt :=
read_chunks [] := [];
read_chunks (b :: data') :=
  take BLOCK (b :: data') :: read_chunks (drop BLOCK (b :: data')).
Proof. unfold BLOCK. rewrite length_drop. simpl length. lia. Qed.

(** [compute_file_hash(file_path, algorithm)]. The file is its content,
    or [None] when it cannot be opened. *)
Definition compute_file_hash (lib : Hashlib.Provider)
    (file : option (list byte)) (algorithm : string) : result string :=
  let algorithm_upper := upper algorithm in
  if String.eqb algorithm_upper "CRC32" then
    match file with
    | None => Raise (OSError "open")
    | Some data =>
        let hash_val :=
          fold_left (fun hash_val chunk => Zlib.crc32 chunk hash_val)
                    (read_chunks data) 0%Z in
        Ok (str (Z.land hash_val 0xffffffff))
    end
  else
    match Hashlib.new lib (lower algorithm) with
    | None => Raise (ValueError ("不支持的哈希算法: " +:+ algorithm))
    | Some hash_obj =>
        match file with
        | None => Raise (OSError "open")
        | Some data =>
            Hashlib.hexdigest lib
              (fold_left Hashlib.update (read_chunks data) hash_obj)
        end
    end.

(** What the prefix loop of [main] leaves behind: the successive values
    of [prefix_len], whether [get_unique_path] was called, and
    [dest_path]. *)
Record Probe : Type := {
  tracked : list nat;
  fell_back : bool;
  dest_path : string
}.

(** The [while True] loop of [main] (lines 116-125), entered with
    [prefix_len], among existence tests that answer; [Full.prefix_loop]
    is the loop among tests that can raise. *)
Equations? prefix_loop (target_dir : gset string) (full_hash name : string)
    (prefix_len : nat) : Probe
  by wf (String.length full_hash - prefix_len) lt :=
prefix_loop target_dir full_hash name prefix_len
  with bool_decide (slice_to prefix_len full_hash +:+ "_" +:+ name ∈ target_dir) := {
  | false :=
      {| tracked := [prefix_len]; fell_back := false;
         dest_path := slice_to prefix_len full_hash +:+ "_" +:+ name |}
  | true with decide (String.length full_hash ≤ prefix_len)%nat := {
    | left _ :=
        {| tracked := [prefix_len]; fell_back := true;
           dest_path :=
             get_unique_path target_dir
               (slice_to prefix_len full_hash +:+ "_" +:+ name) |}
    | right _ :=
        let r := prefix_loop target_dir full_hash name (S prefix_len) in
        {| tracked := prefix_len :: tracked r; fell_back := fell_back r;
           dest_path := dest_path r |} } }.
Proof. lia. Qed.

(** The parsed command line, as far as the loop of [main] reads it;
    [target_dir_path] is [target_dir] as a path, resolved. *)
Record Args : Type := {
  target_dir_path : string;
  prefix_length : Z;
  extension : string;
  case_sensitive : bool;
  algorithm : string;
  move : bool
}.

(** One path produced by [source_dir.rglob('*')]. *)
Record Entry : Type := {
  file_path : string;
  is_file : bool;
  content : option (list byte)
}.

(** Everything outside the script: the hash library, and whether
    [shutil.move] (flag [true]) or [shutil.copy2] fails for a source, a
    destination and the current target directory. *)
Record World : Type := {
  hashlib : Hashlib.Provider;
  shutil_error : bool → Entry → string → gset string → option exn
}.

(** The two messages printed inside the loop. *)
Inductive Line : Type :=
| Success (e : Entry) (dest : string)
| Failure (e : Entry) (reason : exn).

Record State : Type := {
  target : gset string;
  processed_files : Z;
  printed : list Line
}.

(** Line 99: the extension, made to start with a dot. *)
Definition normalize_ext (extension : string) : string :=
  if startswith_dot extension then extension else "." +:+ extension.

(** Lines 106-109. *)
Definition match_ext (args : Args) (path : string) : bool :=
  let ext := normalize_ext (extension args) in
  if case_sensitive args
  then String.eqb (suffix path) ext
  else String.eqb (lower (suffix path)) (lower ext).

(** Lines 104 and 110: the files the loop body runs on. *)
Definition selected (args : Args) (e : Entry) : bool :=
  is_file e && match_ext args (file_path e).

(** Lines 112-128: the destination chosen for one file. *)
Definition name_destination (w : World) (args : Args)
    (target_dir : gset string) (e : Entry) : result string :=
  if negb (prefix_length args =? 0)%Z then
    full_hash ← compute_file_hash (hashlib w) (content e) (algorithm args);
    let initial_len := Z.abs_nat (prefix_length args) in
    Ok (dest_path (prefix_loop target_dir full_hash (name (file_path e)) initial_len))
  else
    Ok (get_unique_path target_dir (name (file_path e))).

(** The source is itself an entry of the target directory. *)
Definition in_target (args : Args) (e : Entry) : bool :=
  String.eqb (parent (file_path e)) (target_dir_path args).

(** What the placement leaves of the target directory's entries:
    [shutil.move] takes the source away with it when the source lies in
    the target directory; [shutil.copy2] removes nothing. *)
Definition after_removal (args : Args) (target_dir : gset string) (e : Entry) : gset string :=
  if move args && in_target args e
  then target_dir ∖ {[name (file_path e)]}
  else target_dir.

(** Lines 130-133, for regular files and calls that fail before they
    change anything: on success the destination is an entry of the
    target directory, on failure the directory is as it was. What
    [shutil] does otherwise is left to the surroundings of [Full.main]. *)
Definition place (w : World) (args : Args) (target_dir : gset string)
    (e : Entry) (dest : string) : result (gset string) :=
  match shutil_error w (move args) e dest target_dir with
  | Some err => Raise err
  | None => Ok ({[dest]} ∪ after_removal args target_dir e)
  end.

(** Lines 111-138: the [try] block and its handler, with a [print] that
    does not raise. *)
Definition process_file (w : World) (args : Args) (st : State) (e : Entry) : State :=
  match (dest ← name_destination w args (target st) e;
         target_dir' ← place w args (target st) e dest;
         Ok (dest, target_dir')) with
  | Ok (dest, target_dir') =>
      {| target := target_dir';
         processed_files := processed_files st + 1;
         printed := printed st ++ [Success e dest] |}
  | Raise err =>
      {| target := target st;
         processed_files := processed_files st;
         printed := printed st ++ [Failure e err] |}
  end.

(** Lines 104-138, with an [is_file()] that answers. *)
Definition loop_body (w : World) (args : Args) (st : State) (e : Entry) : State :=
  if selected args e then process_file w args st e else st.

(** Lines 101-140: the loop over the source tree; the final report is
    [processed_files] of the result. *)
Definition main (w : World) (args : Args) (target_dir : gset string)
    (entries : list Entry) : State :=
  fold_left (loop_body w args) entries
    {| target := target_dir; processed_files := 0; printed := [] |}.



(** The name tried by [get_unique_path] at counter value [n]. *)
Definition suffixed (base ext : string) (n : Z) : string :=
  base +:+ "_" +:+ str n +:+ ext.

(** The name tried by the prefix loop at prefix length [p]. *)
Definition prefixed (full_hash name : string) (p : nat) : string :=
  slice_to p full_hash +:+ "_" +:+ name.

(** Mode B from prefix length [p] on. *)
Definition mode_b_from (target_dir : gset string) (full_hash name : string)
    (p : nat) : string :=
  dest_path (prefix_loop target_dir full_hash name p).

(** Every character of [s] passes the test [P]. *)
Fixpoint str_forall (P : ascii → bool) (s : string) : bool :=
  match s with
  | EmptyString => true
  | String c s' => P c && str_forall P s'
  end.

Definition is_lower_hex (c : ascii) : bool := contains c "0123456789abcdef".

Definition is_decimal_digit (c : ascii) : bool := contains c "0123456789".

(** The number a string of decimal digits denotes, read left to right
    from the value [acc] of the digits already seen. *)
Fixpoint decimal_value (acc : N) (s : string) : option N :=
  match s with
  | EmptyString => Some acc
  | String c s' =>
      if is_decimal_digit c
      then decimal_value (10 * acc + (N_of_ascii c - 48)) s'
      else None
  end.




Definition line_dest (l : Line) : option string :=
  match l with
  | Success _ dest => Some dest
  | Failure _ _ => None
  end.

(** The [try] body of one iteration: name, then place. *)
Definition try_body (w : World) (args : Args) (target_dir : gset string)
    (e : Entry) : result (string * gset string) :=
  dest ← name_destination w args target_dir e;
  target_dir' ← place w args target_dir e dest;
  Ok (dest, target_dir').



(** The command line with another [-E], [-C] or [-P] value. *)
Definition with_extension (args : Args) (extension : string) : Args :=
  {| target_dir_path := target_dir_path args; prefix_length := prefix_length args;
     extension := extension; case_sensitive := case_sensitive args;
     algorithm := algorithm args; move := move args |}.

Definition with_case_sensitive (args : Args) (flag : bool) : Args :=
  {| target_dir_path := target_dir_path args; prefix_length := prefix_length args;
     extension := extension args; case_sensitive := flag;
     algorithm := algorithm args; move := move args |}.

Definition with_prefix_length (args : Args) (L : Z) : Args :=
  {| target_dir_path := target_dir_path args; prefix_length := L;
     extension := extension args; case_sensitive := case_sensitive args;
     algorithm := algorithm args; move := move args |}.


(** ** The script among calls that can fail *)

(** What surrounds one run. The hash library; the exception, if any,
    that [Path.exists()] raises for a name in the target directory (a
    name longer than the file system allows, for one), that [is_file()]
    raises for an entry of the traversal, that [print] raises for a
    line of the loop, and that it raises for the report of line 140 with
    a given count; and what [shutil.move] (flag [true]) or [shutil.copy2] does
    for a source, a destination and the names for which [exists()]
    answers [True]: the exception it raises, if any, and the names for
    which [exists()] answers [True] afterwards. *)
Record Env : Type := {
  env_hashlib : Hashlib.Provider;
  exists_error : string → option exn;
  is_file_error : Entry → option exn;
  print_error : Line → option exn;
  report_error : Z → option exn;
  shutil : bool → Entry → string → gset string → option exn * gset string
}.

(** How a run ends: at line 140 with its report, or in an exception that
    nothing catches; either way with the state reached. *)
Inductive Run : Type :=
| Finished (st : State)
| Died (st : State) (err : exn).

Definition run_state (r : Run) : State :=
  match r with
  | Finished st => st
  | Died st _ => st
  end.

Definition set_target (st : State) (target_dir : gset string) : State :=
  {| target := target_dir; processed_files := processed_files st;
     printed := printed st |}.

Definition count_up (st : State) : State :=
  {| target := target st; processed_files := processed_files st + 1;
     printed := printed st |}.

Definition print_line (st : State) (l : Line) : State :=
  {| target := target st; processed_files := processed_files st;
     printed := printed st ++ [l] |}.

Module Full.

(** The [while True] loop of [get_unique_path]: each turn calls
    [dest_path.exists()], which raises or answers. *)
Fixpoint get_unique_path_loop (env : Env) (dest_dir : gset string) (base ext : string)
    (fuel : nat) (filename : string) (counter : Z) : option (result string) :=
  match fuel with
  | O => None
  | S fuel' =>
      match exists_error env filename with
      | Some err => Some (Raise err)
      | None =>
          if bool_decide (filename ∈ dest_dir)
          then get_unique_path_loop env dest_dir base ext fuel'
                 (base +:+ "_" +:+ str counter +:+ ext) (counter + 1)%Z
          else Some (Ok filename)
      end
  end.

(** [get_unique_path(dest_dir, filename)]; the fuel is enough
    ([full_get_unique_path_fuel]). *)
Definition get_unique_path (env : Env) (dest_dir : gset string) (filename : string) : result string :=
  let '(base, ext) := splitext filename in
  default (Ok filename)
    (get_unique_path_loop env dest_dir base ext (S (size dest_dir)) filename 1).

(** The [while True] loop of [main] (lines 116-125), entered with
    [prefix_len]. *)
Equations? prefix_loop (env : Env) (target_dir : gset string) (full_hash name : string)
    (prefix_len : nat) : result string
  by wf (String.length full_hash - prefix_len) lt :=
prefix_loop env target_dir full_hash name prefix_len
  with exists_error env (slice_to prefix_len full_hash +:+ "_" +:+ name) := {
  | Some err := Raise err
  | None
    with bool_decide (slice_to prefix_len full_hash +:+ "_" +:+ name ∈ target_dir) := {
    | false := Ok (slice_to prefix_len full_hash +:+ "_" +:+ name)
    | true with decide (String.length full_hash ≤ prefix_len)%nat := {
      | left _ :=
          get_unique_path env target_dir
            (slice_to prefix_len full_hash +:+ "_" +:+ name)
      | right _ := prefix_loop env target_dir full_hash name (S prefix_len) } } }.
Proof. lia. Qed.

(** Lines 112-128. *)
Definition name_destination (env : Env) (args : Args)
    (target_dir : gset string) (e : Entry) : result string :=
  if negb (prefix_length args =? 0)%Z then
    full_hash ← compute_file_hash (env_hashlib env) (content e) (algorithm args);
    let initial_len := Z.abs_nat (prefix_length args) in
    prefix_loop env target_dir full_hash (name (file_path e)) initial_len
  else
    get_unique_path env target_dir (name (file_path e)).

(** Lines 112-136, the body of the [try]: the state it leaves and the
    exception it raised, if any. The counter goes up before the success
    line is printed. *)
Definition try_block (env : Env) (args : Args) (st : State) (e : Entry) : State * option exn :=
  match name_destination env args (target st) e with
  | Raise err => (st, Some err)
  | Ok dest =>
      match shutil env (move args) e dest (target st) with
      | (Some err, target_dir') => (set_target st target_dir', Some err)
      | (None, target_dir') =>
          let st' := count_up (set_target st target_dir') in
          match print_error env (Success e dest) with
          | Some err => (st', Some err)
          | None => (print_line st' (Success e dest), None)
          end
      end
  end.

(** Lines 111-138: the handler prints the failure line, and nothing
    catches what that [print] raises. *)
Definition process_file (env : Env) (args : Args) (st : State) (e : Entry) : Run :=
  match try_block env args st e with
  | (st', None) => Finished st'
  | (st', Some err) =>
      match print_error env (Failure e err) with
      | Some err' => Died st' err'
      | None => Finished (print_line st' (Failure e err))
      end
  end.

(** Lines 104-138: [is_file()] is called outside the [try]. *)
Definition loop_body (env : Env) (args : Args) (st : State) (e : Entry) : Run :=
  match is_file_error env e with
  | Some err => Died st err
  | None => if selected args e then process_file env args st e else Finished st
  end.

(** Lines 103-138: an uncaught exception ends the loop. *)
Fixpoint main_loop (env : Env) (args : Args) (st : State) (entries : list Entry) : Run :=
  match entries with
  | [] => Finished st
  | e :: entries' =>
      match loop_body env args st e with
      | Finished st' => main_loop env args st' entries'
      | Died st' err => Died st' err
      end
  end.

(** Lines 101-140: a run is [Finished] when the report of line 140 has
    been printed. *)
Definition main (env : Env) (args : Args) (target_dir : gset string)
    (entries : list Entry) : Run :=
  match main_loop env args
          {| target := target_dir; processed_files := 0; printed := [] |} entries with
  | Finished st =>
      match report_error env (processed_files st) with
      | Some err => Died st err
      | None => Finished st
      end
  | Died st err => Died st err
  end.

End Full.

(** The surroundings in which nothing but hashing and placement can
    fail, placement as [place] has it. *)
Definition env_of_world (w : World) (args : Args) : Env :=
  {| env_hashlib := hashlib w;
     exists_error := fun _ => None;
     is_file_error := fun _ => None;
     print_error := fun _ => None;
     report_error := fun _ => None;
     shutil := fun flag e dest target_dir =>
       match shutil_error w flag e dest target_dir with
       | Some err => (Some err, target_dir)
       | None => (None, {[dest]} ∪ after_removal args target_dir e)
       end |}.

(** The [i]-th name that the loop of [get_unique_path] tests when it is
    entered with [filename] and [counter]. *)
Definition probed (base ext filename : string) (counter : Z) (i : nat) : string :=
  match i with
  | O => filename
  | S i' => suffixed base ext (counter + Z.of_nat i')
  end.

(** Every existence test answers. *)
Definition probes_answer (env : Env) : Prop :=
  ∀ filename, exists_error env filename = None.



(** A placement takes no name away from the existence test, and after a
    successful one the test sees the destination. *)
Definition placement_keeps (env : Env) : Prop :=
  ∀ flag e dest target_dir,
    target_dir ⊆ (shutil env flag e dest target_dir).2 ∧
    ((shutil env flag e dest target_dir).1 = None →
     dest ∈ (shutil env flag e dest target_dir).2).

(** A successful placement adds the destination and nothing else; a
    failed one leaves the directory as it was. *)
Definition placement_exact (env : Env) : Prop :=
  ∀ flag e dest target_dir,
    shutil env flag e dest target_dir = (None, {[dest]} ∪ target_dir) ∨
    ∃ err, shutil env flag e dest target_dir = (Some err, target_dir).

(** What the loop keeps true of the directory under [placement_exact]:
    it holds the entries of the start and one more per counted file. *)
Definition grow_inv (target_dir : gset string) (st : State) : Prop :=
  target_dir ⊆ target st ∧
  Z.of_nat (size (target st)) = (Z.of_nat (size target_dir) + processed_files st)%Z ∧
  ∀ dest, dest ∈ omap line_dest (printed st) →
          dest ∈ target st ∧ dest ∉ target_dir.

(** ** Sample inputs *)

(** An installation with the guaranteed algorithms only; as a stand-in
    for the digest functions, the digest of a file is its own bytes. *)
Definition bare_hashlib : Hashlib.Provider :=
  {| Hashlib.openssl_has := fun _ => false;
     Hashlib.openssl_xof := fun _ => false;
     Hashlib.digest_of := fun _ data => data |}.


(** Every placement succeeds. *)
Definition calm : World :=
  {| hashlib := bare_hashlib; shutil_error := fun _ _ _ _ => None |}.

(** Placements of files under [/src/locked/] fail. *)
Definition flaky : World :=
  {| hashlib := bare_hashlib;
     shutil_error := fun _ e _ _ =>
       if String.prefix "/src/locked/" (file_path e)
       then Some (OSError "Permission denied") else None |}.

Definition sample_file (path data : string) : Entry :=
  {| file_path := path; is_file := true;
     content := Some (list_byte_of_string data) |}.

Definition sample_args (L : Z) : Args :=
  {| target_dir_path := "/dst"; prefix_length := L; extension := "txt";
     case_sensitive := false; algorithm := "crc32"; move := false |}.

(** Moving into a directory inside the source tree. *)
Definition nested_move_args : Args :=
  {| target_dir_path := "/src/out"; prefix_length := 1; extension := "txt";
     case_sensitive := false; algorithm := "crc32"; move := true |}.

Definition sample_run : list Entry :=
  [ sample_file "/src/a.txt" "a";
    {| file_path := "/src/gone/a.txt"; is_file := true; content := None |};
    sample_file "/src/locked/a.txt" "a";
    sample_file "/src/notes.md" "a";
    sample_file "/src/sub/a.TXT" "123456789" ].

(** What the traversal yields when [/src/a.txt] has been moved into
    [/src/out] before that directory is scanned. *)
Definition nested_run : list Entry :=
  [ sample_file "/src/a.txt" "a";
    sample_file "/src/out/3_a.txt" "a";
    sample_file "/src/z/a.txt" "123456789" ].

(** Surroundings in which no call fails and every placed file is seen
    at its destination. *)
Definition plain_env : Env :=
  {| env_hashlib := bare_hashlib;
     exists_error := fun _ => None;
     is_file_error := fun _ => None;
     print_error := fun _ => None;
     report_error := fun _ => None;
     shutil := fun _ _ dest target_dir => (None, {[dest]} ∪ target_dir) |}.

(** A file system whose names have at most 255 bytes: the existence test
    of a longer one raises. *)
Definition name_limit_env : Env :=
  {| env_hashlib := bare_hashlib;
     exists_error := fun filename =>
       if 255 <? String.length filename
       then Some (OSError "[Errno 36] File name too long") else None;
     is_file_error := fun _ => None;
     print_error := fun _ => None;
     report_error := fun _ => None;
     shutil := fun _ _ dest target_dir => (None, {[dest]} ∪ target_dir) |}.

(** A name of 255 bytes. *)
Definition long_name : string :=
  string_of_list_ascii (replicate 251 "a"%char) +:+ ".txt".




(** Moving a relative symbolic link takes the link as it is: at its
    destination it points nowhere, and the existence test, which
    follows links, does not see it. The links lie below [/src/links]. *)
Definition dangling_env : Env :=
  {| env_hashlib := bare_hashlib;
     exists_error := fun _ => None;
     is_file_error := fun _ => None;
     print_error := fun _ => None;
     report_error := fun _ => None;
     shutil := fun flag e dest target_dir =>
       if flag && String.prefix "/src/links/" (file_path e)
       then (None, target_dir)
       else (None, {[dest]} ∪ target_dir) |}.

Definition move_args : Args :=
  {| target_dir_path := "/dst"; prefix_length := 1; extension := "txt";
     case_sensitive := false; algorithm := "crc32"; move := true |}.

Definition links_run : list Entry :=
  [ sample_file "/src/links/l.txt" "a";
    sample_file "/src/other/l.txt" "123456789" ].



(** ** String facts *)

Lemma app_cons (c : ascii) (s t : string) : String c s +:+ t = String c (s +:+ t).
Proof. reflexivity. Qed.

Lemma app_empty_l (t : string) : "" +:+ t = t.
Proof. reflexivity. Qed.

Lemma app_empty_r (s : string) : s +:+ "" = s.
Proof. induction s as [|c s IH]; [done |]. by rewrite app_cons, IH. Qed.

Lemma str_length_app (s t : string) :
  String.length (s +:+ t) = String.length s + String.length t.
Proof.
  induction s as [|c s IH]; [done |].
  rewrite app_cons. simpl. by rewrite IH.
Qed.

Lemma app_assoc_str (s t u : string) : (s +:+ t) +:+ u = s +:+ t +:+ u.
Proof.
  induction s as [|c s IH]; [done |].
  by rewrite !app_cons, IH.
Qed.

Lemma app_inj_r (s1 s2 t : string) : s1 +:+ t = s2 +:+ t → s1 = s2.
Proof.
  revert s2. induction s1 as [|c s1 IH]; intros [|d s2] H.
  - done.
  - apply (f_equal String.length) in H.
    rewrite app_cons, app_empty_l in H. simpl in H.
    rewrite str_length_app in H. lia.
  - apply (f_equal String.length) in H.
    rewrite app_cons, app_empty_l in H. simpl in H.
    rewrite str_length_app in H. lia.
  - rewrite !app_cons in H. injection H as -> H. f_equal. by apply IH.
Qed.

Lemma slice_to_from (n : nat) (s : string) :
  slice_to n s +:+ slice_from n s = s.
Proof.
  revert s. induction n as [|n IH]; intros [|c s]; simpl; try done.
  by rewrite app_cons, IH.
Qed.

Lemma slice_to_all (n : nat) (s : string) :
  String.length s ≤ n → slice_to n s = s.
Proof.
  revert s. induction n as [|n IH]; intros [|c s]; simpl; intros H; try done.
  - lia.
  - rewrite IH; [done | lia].
Qed.

Lemma slice_to_length (n : nat) (s : string) :
  String.length (slice_to n s) = n `min` String.length s.
Proof.
  revert s. induction n as [|n IH]; intros [|c s]; simpl; try done.
  by rewrite IH.
Qed.

Lemma splitext_app (p base ext : string) :
  splitext p = (base, ext) → base +:+ ext = p.
Proof.
  unfold splitext. intros H.
  destruct (_ <? _)%Z; [destruct (all_are _ _) |];
    injection H as <- <-; auto using slice_to_from, app_empty_r.
Qed.

(** ** The numeric-suffix loop *)

Lemma suffixed_inj (base ext : string) (i j : Z) :
  suffixed base ext i = suffixed base ext j → i = j.
Proof.
  unfold suffixed. intros H.
  apply String.app_inj in H. rewrite !app_cons, !app_empty_l in H.
  injection H as H. apply app_inj_r in H. by apply (inj pretty) in H.
Qed.

Lemma suffixed_longer (base ext : string) (n : Z) :
  String.length (base +:+ ext) < String.length (suffixed base ext n).
Proof. unfold suffixed. rewrite !str_length_app. simpl. lia. Qed.

Lemma suffixed_ne (base ext : string) (n : Z) : base +:+ ext ≠ suffixed base ext n.
Proof.
  intros H. pose proof (suffixed_longer base ext n) as Hlt.
  rewrite <- H in Hlt. lia.
Qed.

Section SuffixLoop.
Context (dest_dir : gset string) (base ext : string).

(** A returned name is unused, and is either the name the loop was
    entered with or the first unused suffixed name from [counter] on. *)
Lemma loop_sound (fuel : nat) (filename : string) (counter : Z) (p : string) :
  get_unique_path_loop dest_dir base ext fuel filename counter = Some p →
  (p ∉ dest_dir) ∧
  (p = filename ∨
   filename ∈ dest_dir ∧
   ∃ n, (counter ≤ n)%Z ∧ p = suffixed base ext n ∧
        ∀ m, (counter ≤ m < n)%Z → suffixed base ext m ∈ dest_dir).
Proof.
  revert filename counter.
  induction fuel as [|fuel IH]; intros filename counter; simpl; [done |].
  case_bool_decide as Hin.
  - intros Hp. destruct (IH _ _ Hp) as [Hfree [-> | [Hc (n & Hn & -> & Hbelow)]]].
    + split; [done |]. right. split; [done |].
      exists counter. split; [lia |]. split; [done |]. intros m Hm. lia.
    + split; [done |]. right. split; [done |].
      exists n. split; [lia |]. split; [done |]. intros m Hm.
      destruct (decide (m = counter)) as [-> | Hne]; [done |].
      apply Hbelow. lia.
  - intros [= ->]. split; [done | by left].
Qed.

Lemma loop_mono (fuel fuel' : nat) (filename : string) (counter : Z) (p : string) :
  fuel ≤ fuel' →
  get_unique_path_loop dest_dir base ext fuel filename counter = Some p →
  get_unique_path_loop dest_dir base ext fuel' filename counter = Some p.
Proof.
  revert fuel' filename counter.
  induction fuel as [|fuel IH]; intros fuel' filename counter Hle; simpl; [done |].
  destruct fuel' as [|fuel']; [lia |]. simpl.
  case_bool_decide; [| done]. apply IH. lia.
Qed.

(** The pigeonhole argument: [D] over-approximates the entries the loop
    can still run into, and each failed test removes one of them. *)
Lemma loop_terminates (fuel : nat) (D : gset string) (filename : string) (counter : Z) :
  size D < fuel →
  (filename ∈ dest_dir → filename ∈ D) →
  (∀ j, (counter ≤ j)%Z → suffixed base ext j ∈ dest_dir → suffixed base ext j ∈ D) →
  (∀ j, (counter ≤ j)%Z → filename ≠ suffixed base ext j) →
  is_Some (get_unique_path_loop dest_dir base ext fuel filename counter).
Proof.
  revert D filename counter.
  induction fuel as [|fuel IH]; intros D filename counter Hsz Hcur Hnext Hfresh;
    [lia |].
  simpl. case_bool_decide as Hin; [| by eexists].
  apply (IH (D ∖ {[filename]})).
  - assert ({[filename]} ⊆ D) as Hsub by set_solver.
    rewrite size_difference by done.
    apply subseteq_size in Hsub. rewrite size_singleton in *. lia.
  - intros Hc. apply elem_of_difference. split.
    + apply Hnext; [lia | done].
    + rewrite elem_of_singleton. intros Heq. by apply (Hfresh counter); [lia |].
  - intros j Hj Hc. apply elem_of_difference. split.
    + apply Hnext; [lia | done].
    + rewrite elem_of_singleton. intros Heq. by apply (Hfresh j); [lia |].
  - intros j Hj Heq. apply suffixed_inj in Heq. lia.
Qed.

End SuffixLoop.

(** With more fuel than the directory has entries the loop returns, and
    what it returns is [get_unique_path]. *)
Lemma get_unique_path_fuel (dest_dir : gset string) (filename : string) (fuel : nat) :
  size dest_dir < fuel →
  get_unique_path_loop dest_dir (splitext filename).1 (splitext filename).2
    fuel filename 1 = Some (get_unique_path dest_dir filename).
Proof.
  intros Hfuel. unfold get_unique_path.
  destruct (splitext filename) as [base ext] eqn:Hsplit. cbn [fst snd].
  apply splitext_app in Hsplit.
  destruct (loop_terminates dest_dir base ext (S (size dest_dir)) dest_dir filename 1)
    as [p Hp]; [lia | done | done | |].
  { intros j _. rewrite <- Hsplit. apply suffixed_ne. }
  rewrite Hp. cbn [default]. eapply loop_mono; [| exact Hp]. lia.
Qed.

Lemma get_unique_path_free (dest_dir : gset string) (filename : string) :
  get_unique_path dest_dir filename ∉ dest_dir.
Proof.
  pose proof (get_unique_path_fuel dest_dir filename (S (size dest_dir))) as H.
  apply loop_sound in H; [tauto | lia].
Qed.

Lemma get_unique_path_unused (dest_dir : gset string) (filename : string) :
  filename ∉ dest_dir → get_unique_path dest_dir filename = filename.
Proof.
  intros Hfree.
  pose proof (get_unique_path_fuel dest_dir filename (S (size dest_dir))) as H.
  simpl in H. rewrite bool_decide_eq_false_2 in H by done.
  injection H as <-; [done | lia].
Qed.

Lemma get_unique_path_used (dest_dir : gset string) (filename : string) :
  filename ∈ dest_dir →
  ∃ n, (1 ≤ n)%Z ∧
       get_unique_path dest_dir filename
       = suffixed (splitext filename).1 (splitext filename).2 n ∧
       ∀ m, (1 ≤ m < n)%Z →
            suffixed (splitext filename).1 (splitext filename).2 m ∈ dest_dir.
Proof.
  intros Hin.
  pose proof (get_unique_path_fuel dest_dir filename (S (size dest_dir))) as H.
  apply loop_sound in H; [| lia].
  destruct H as [Hfree [Heq | [_ H]]]; [| done].
  rewrite Heq in Hfree. done.
Qed.

(** ** The prefix loop *)

Lemma prefix_loop_free (target_dir : gset string) (full_hash name : string) (p : nat) :
  prefixed full_hash name p ∉ target_dir →
  prefix_loop target_dir full_hash name p
  = {| tracked := [p]; fell_back := false;
       dest_path := prefixed full_hash name p |}.
Proof.
  intros Hfree. unfold prefixed in *. simp prefix_loop.
  rewrite bool_decide_eq_false_2 by done. by simp prefix_loop.
Qed.

Lemma prefix_loop_retry (target_dir : gset string) (full_hash name : string) (p : nat) :
  prefixed full_hash name p ∈ target_dir →
  p < String.length full_hash →
  prefix_loop target_dir full_hash name p
  = let r := prefix_loop target_dir full_hash name (S p) in
    {| tracked := p :: tracked r; fell_back := fell_back r;
       dest_path := dest_path r |}.
Proof.
  intros Hin Hlt. unfold prefixed in *. rewrite prefix_loop_equation_1.
  rewrite bool_decide_eq_true_2 by done. simp prefix_loop.
  destruct (decide _) as [Hle | Hnle]; [lia |]. by simp prefix_loop.
Qed.

Lemma prefix_loop_exhausted (target_dir : gset string) (full_hash name : string) (p : nat) :
  prefixed full_hash name p ∈ target_dir →
  String.length full_hash ≤ p →
  prefix_loop target_dir full_hash name p
  = {| tracked := [p]; fell_back := true;
       dest_path := get_unique_path target_dir (full_hash +:+ "_" +:+ name) |}.
Proof.
  intros Hin Hle. unfold prefixed in *. rewrite prefix_loop_equation_1.
  rewrite bool_decide_eq_true_2 by done. simp prefix_loop.
  destruct (decide _) as [Hle' | Hnle]; [| lia]. simp prefix_loop.
  by rewrite slice_to_all.
Qed.

(** The shape of every run of the prefix loop: it visits [p], [p+1], ...,
    [p+k], all names before the last are taken, and it ends either on a
    free prefixed name or, with the prefix no shorter than the digest, in
    [get_unique_path]. *)
Lemma prefix_loop_shape (target_dir : gset string) (full_hash name : string) (p : nat) :
  ∃ k,
    tracked (prefix_loop target_dir full_hash name p) = seq p (S k) ∧
    p + k ≤ p `max` String.length full_hash ∧
    (∀ i, i < k →
          prefixed full_hash name (p + i) ∈ target_dir ∧
          p + i < String.length full_hash) ∧
    if fell_back (prefix_loop target_dir full_hash name p)
    then String.length full_hash ≤ p + k ∧
         prefixed full_hash name (p + k) ∈ target_dir ∧
         dest_path (prefix_loop target_dir full_hash name p)
         = get_unique_path target_dir (full_hash +:+ "_" +:+ name)
    else (prefixed full_hash name (p + k) ∉ target_dir) ∧
         dest_path (prefix_loop target_dir full_hash name p)
         = prefixed full_hash name (p + k).
Proof.
  remember (String.length full_hash - p) as gap eqn:Hgap.
  revert p Hgap. induction gap as [|gap IH]; intros p Hgap.
  - destruct (decide (prefixed full_hash name p ∈ target_dir)) as [Hin | Hfree].
    + rewrite prefix_loop_exhausted by (done || lia). exists 0. simpl.
      rewrite Nat.add_0_r. repeat split; try done; lia.
    + rewrite prefix_loop_free by done. exists 0. simpl.
      rewrite Nat.add_0_r. repeat split; try done; lia.
  - destruct (decide (prefixed full_hash name p ∈ target_dir)) as [Hin | Hfree].
    + rewrite prefix_loop_retry by (done || lia). cbn zeta. cbn [tracked fell_back dest_path].
      destruct (IH (S p)) as (k & Htr & Hmax & Hbefore & Hend); [lia |].
      exists (S k). rewrite Htr.
      replace (p + S k) with (S p + k) by lia.
      split; [done |]. split; [lia |]. split; [| done].
      intros [|i] Hi.
      * rewrite Nat.add_0_r. split; [done | lia].
      * replace (p + S i) with (S p + i) by lia. apply Hbefore. lia.
    + rewrite prefix_loop_free by done. exists 0. simpl.
      rewrite Nat.add_0_r. repeat split; try done; lia.
Qed.

Lemma prefix_loop_dest_free (target_dir : gset string) (full_hash name : string) (p : nat) :
  dest_path (prefix_loop target_dir full_hash name p) ∉ target_dir.
Proof.
  destruct (prefix_loop_shape target_dir full_hash name p) as (k & _ & _ & _ & Hend).
  destruct (fell_back _).
  - destruct Hend as (_ & _ & ->). apply get_unique_path_free.
  - destruct Hend as (Hfree & ->). done.
Qed.

(** ** The checksum *)

Lemma u32_land (x : Z) : (0 ≤ x < 2 ^ 32)%Z ↔ Z.land x 0xffffffff = x.
Proof.
  change 0xffffffff%Z with (Z.ones 32). rewrite Z.land_ones by lia. split.
  - intros H. by apply Z.mod_small.
  - intros <-. apply Z.mod_pos_bound. lia.
Qed.

Lemma land_lxor_distr (a b c : Z) :
  Z.land (Z.lxor a b) c = Z.lxor (Z.land a c) (Z.land b c).
Proof.
  apply Z.bits_inj'. intros n Hn.
  rewrite !Z.land_spec, !Z.lxor_spec, !Z.land_spec.
  by destruct (Z.testbit a n), (Z.testbit b n), (Z.testbit c n).
Qed.

Lemma u32_lxor (a b : Z) :
  (0 ≤ a < 2 ^ 32)%Z → (0 ≤ b < 2 ^ 32)%Z → (0 ≤ Z.lxor a b < 2 ^ 32)%Z.
Proof.
  rewrite !u32_land. intros Ha Hb.
  by rewrite land_lxor_distr, Ha, Hb.
Qed.

Lemma crc32_bit_u32 (c : Z) :
  (0 ≤ c < 2 ^ 32)%Z → (0 ≤ Zlib.crc32_bit c < 2 ^ 32)%Z.
Proof.
  intros Hc. unfold Zlib.crc32_bit.
  assert (0 ≤ Z.shiftr c 1 < 2 ^ 32)%Z as Hs.
  { rewrite Z.shiftr_div_pow2 by lia. change (2 ^ 1)%Z with 2%Z.
    split; [apply Z.div_pos; lia |].
    apply Z.div_lt_upper_bound; lia. }
  destruct (Z.testbit c 0); [| done].
  apply u32_lxor; [done | lia].
Qed.

Lemma crc32_byte_u32 (c : Z) (b : byte) :
  (0 ≤ c < 2 ^ 32)%Z → (0 ≤ Zlib.crc32_byte c b < 2 ^ 32)%Z.
Proof.
  intros Hc. unfold Zlib.crc32_byte.
  assert (0 ≤ Z.lxor c (Z.of_N (Byte.to_N b)) < 2 ^ 32)%Z as H.
  { apply u32_lxor; [done |].
    pose proof (Byte.to_N_bounded b). lia. }
  revert H. generalize (Z.lxor c (Z.of_N (Byte.to_N b))). intros x Hx.
  simpl. by do 8 apply crc32_bit_u32.
Qed.

Lemma crc32_fold_u32 (data : list byte) (c : Z) :
  (0 ≤ c < 2 ^ 32)%Z → (0 ≤ fold_left Zlib.crc32_byte data c < 2 ^ 32)%Z.
Proof.
  revert c. induction data as [|b data IH]; intros c Hc; simpl; [done |].
  by apply IH, crc32_byte_u32.
Qed.

Lemma crc32_u32 (data : list byte) (value : Z) :
  (0 ≤ Zlib.crc32 data value < 2 ^ 32)%Z.
Proof.
  unfold Zlib.crc32. apply u32_lxor; [| lia].
  apply crc32_fold_u32, u32_lxor; [| lia].
  apply u32_land. by rewrite <- Z.land_assoc, Z.land_diag.
Qed.

Lemma lxor_twice (x m : Z) : Z.lxor (Z.lxor x m) m = x.
Proof. by rewrite Z.lxor_assoc, Z.lxor_nilpotent, Z.lxor_0_r. Qed.

Lemma crc32_nil (value : Z) :
  (0 ≤ value < 2 ^ 32)%Z → Zlib.crc32 [] value = value.
Proof.
  intros H. unfold Zlib.crc32. simpl. rewrite lxor_twice. by apply u32_land.
Qed.

(** The checksum can be resumed: feeding [b] after [a] is feeding [a ++ b]. *)
Lemma crc32_app (a b : list byte) (value : Z) :
  Zlib.crc32 (a ++ b) value = Zlib.crc32 b (Zlib.crc32 a value).
Proof.
  pose proof (crc32_u32 a value) as Hr. apply u32_land in Hr.
  unfold Zlib.crc32 at 2. rewrite Hr. unfold Zlib.crc32.
  by rewrite lxor_twice, fold_left_app.
Qed.

Lemma crc32_chunks (chunks : list (list byte)) (value : Z) :
  (0 ≤ value < 2 ^ 32)%Z →
  fold_left (fun hash_val chunk => Zlib.crc32 chunk hash_val) chunks value
  = Zlib.crc32 (concat chunks) value.
Proof.
  revert value. induction chunks as [|c chunks IH]; intros value Hv; simpl.
  - by rewrite crc32_nil.
  - rewrite IH by apply crc32_u32. by rewrite crc32_app.
Qed.

Lemma read_chunks_concat (data : list byte) : concat (read_chunks data) = data.
Proof.
  apply (read_chunks_elim (λ d r, concat r = d)); [done |].
  intros b data' IH. cbn [concat]. rewrite IH. apply take_drop.
Qed.

Lemma read_chunks_block (data : list byte) :
  Forall (λ c, 0 < length c ≤ BLOCK) (read_chunks data).
Proof.
  apply (read_chunks_elim (λ _ r, Forall (λ c, 0 < length c ≤ BLOCK) r)).
  - constructor.
  - intros b data' IH. constructor; [| done].
    rewrite length_take. unfold BLOCK. cbn [length]. lia.
Qed.

(** ** Case mapping *)






(** ** The digest *)

Lemma update_chunks (chunks : list (list byte)) (h : Hashlib.hash_obj) :
  fold_left Hashlib.update chunks h
  = {| Hashlib.alg_name := Hashlib.alg_name h;
       Hashlib.fed := Hashlib.fed h ++ concat chunks |}.
Proof.
  revert h. induction chunks as [|c chunks IH]; intros [nm fd]; simpl.
  - by rewrite app_nil_r.
  - rewrite IH. simpl. by rewrite <- app_assoc.
Qed.

Lemma hex_byte_lower (b : byte) : str_forall is_lower_hex (Hashlib.hex_byte b) = true.
Proof. destruct b; reflexivity. Qed.

Lemma str_forall_app (P : ascii → bool) (s t : string) :
  str_forall P (s +:+ t) = str_forall P s && str_forall P t.
Proof.
  induction s as [|c s IH]; [done |].
  rewrite app_cons. simpl. by rewrite IH, andb_assoc.
Qed.

Lemma hex_lower (bs : list byte) : str_forall is_lower_hex (Hashlib.hex bs) = true.
Proof.
  induction bs as [|b bs IH]; [done |].
  cbn [Hashlib.hex]. by rewrite str_forall_app, hex_byte_lower, IH.
Qed.

Lemma hex_length (bs : list byte) : String.length (Hashlib.hex bs) = 2 * length bs.
Proof.
  induction bs as [|b bs IH]; [done |].
  cbn [Hashlib.hex]. rewrite str_length_app, IH. simpl. lia.
Qed.

(** On a readable file the CRC32 branch returns the checksum of the whole
    content, whatever the block boundaries. *)
Lemma compute_file_hash_crc32 (lib : Hashlib.Provider) (data : list byte) (algorithm : string) :
  upper algorithm = "CRC32" →
  compute_file_hash lib (Some data) algorithm = Ok (str (Zlib.crc32 data 0)).
Proof.
  intros Hup. unfold compute_file_hash. rewrite Hup. simpl.
  rewrite crc32_chunks by lia. rewrite read_chunks_concat.
  f_equal. f_equal. apply u32_land, crc32_u32.
Qed.

(** Every other name goes to [hashlib.new] in lower case. *)
Lemma compute_file_hash_hashlib (lib : Hashlib.Provider) (data : list byte) (algorithm : string) :
  upper algorithm ≠ "CRC32" →
  compute_file_hash lib (Some data) algorithm
  = match Hashlib.new lib (lower algorithm) with
    | None => Raise (ValueError ("不支持的哈希算法: " +:+ algorithm))
    | Some _ =>
        Hashlib.hexdigest lib
          {| Hashlib.alg_name := lower algorithm; Hashlib.fed := data |}
    end.
Proof.
  intros Hup. unfold compute_file_hash.
  rewrite (proj2 (String.eqb_neq _ _)) by done.
  unfold Hashlib.new. destruct (_ || _); [| done].
  rewrite update_chunks. simpl. by rewrite read_chunks_concat.
Qed.

(** ** Decimal rendering *)

Lemma pretty_N_char_digit (d : N) :
  (d < 10)%N →
  is_decimal_digit (pretty_N_char d) = true ∧
  (N_of_ascii (pretty_N_char d) - 48 = d)%N.
Proof.
  intros Hd.
  assert (d = 0 ∨ d = 1 ∨ d = 2 ∨ d = 3 ∨ d = 4 ∨ d = 5 ∨ d = 6 ∨ d = 7
          ∨ d = 8 ∨ d = 9)%N as Hcases by lia.
  repeat (destruct Hcases as [-> | Hcases]; [by split |]).
  by subst d.
Qed.

Lemma decimal_value_go (x : N) (s : string) (acc : N) :
  ∃ k : N, decimal_value acc (pretty_N_go x s) = decimal_value (acc * 10 ^ k + x) s.
Proof.
  revert s. induction (N.lt_wf_0 x) as [x _ IH]; intros s.
  destruct (decide (x = 0)%N) as [-> | Hx].
  - exists 0%N. rewrite pretty_N_go_0. f_equal. simpl. lia.
  - rewrite pretty_N_go_step by lia.
    destruct (IH (x `div` 10)%N) with (s := String (pretty_N_char (x `mod` 10)) s)
      as [k Hk]; [apply N.div_lt; lia |].
    exists (k + 1)%N. rewrite Hk. cbn [decimal_value].
    destruct (pretty_N_char_digit (x `mod` 10)) as [-> ->];
      [apply N.mod_lt; lia |].
    f_equal. rewrite N.pow_add_r, N.pow_1_r.
    pose proof (N.div_mod x 10). lia.
Qed.

(** [str] of a non-negative integer is its decimal numeral. *)
Lemma str_decimal (n : Z) :
  (0 ≤ n)%Z → decimal_value 0 (str n) = Some (Z.to_N n).
Proof.
  intros Hn. unfold str, pretty. destruct n as [|q|q]; [done | | lia].
  cbn [pretty_Z]. unfold pretty, pretty_positive, pretty, pretty_N.
  destruct (decide _) as [|_]; [done |].
  destruct (decimal_value_go (N.pos q) "" 0) as [k ->]. simpl. f_equal.
Qed.

(** ** Suffixes *)

Lemma rfind_bounds (c : ascii) (s : string) :
  (-1 ≤ rfind c s < Z.of_nat (String.length s))%Z.
Proof.
  induction s as [|a s IH]; simpl String.length; cbn [rfind]; [lia |].
  destruct (Z.leb_spec 0 (rfind c s)); [lia |].
  destruct (Ascii.eqb a c); lia.
Qed.

Lemma rfind_absent (c : ascii) (s : string) :
  (rfind c s < 0)%Z → contains c s = false.
Proof.
  induction s as [|a s IH]; cbn [rfind contains]; [done |].
  destruct (Z.leb_spec 0 (rfind c s)); [lia |].
  destruct (Ascii.eqb a c); [lia |]. intros _. by apply IH.
Qed.

(** What follows the last occurrence holds no further occurrence. *)
Lemma rfind_tail (c : ascii) (s : string) :
  (0 ≤ rfind c s)%Z →
  ∃ t, slice_from (Z.to_nat (rfind c s)) s = String c t ∧ contains c t = false.
Proof.
  induction s as [|a s IH]; cbn [rfind]; [lia |].
  destruct (Z.leb_spec 0 (rfind c s)) as [Hr | Hr].
  - intros _. destruct (IH Hr) as (t & Ht & Hc). exists t. split; [| done].
    replace (Z.to_nat (rfind c s + 1)) with (S (Z.to_nat (rfind c s))) by lia.
    done.
  - destruct (Ascii.eqb_spec a c) as [-> | Hne]; [| lia].
    intros _. exists s. split; [done |]. by apply rfind_absent.
Qed.

Lemma slice_from_length (n : nat) (s : string) :
  String.length (slice_from n s) = String.length s - n.
Proof.
  revert s. induction n as [|n IH]; intros [|a s]; simpl; done.
Qed.



Lemma str_map_length (f : ascii → ascii) (s : string) :
  String.length (str_map f s) = String.length s.
Proof. induction s as [|a s IH]; simpl; [done | by rewrite IH]. Qed.

Lemma ascii_lower_dot (a : ascii) : Ascii.eqb (ascii_lower a) "." = Ascii.eqb a ".".
Proof. destruct a as [[] [] [] [] [] [] [] []]; reflexivity. Qed.


Lemma normalize_ext_nonempty (extension : string) : normalize_ext extension ≠ "".
Proof.
  unfold normalize_ext. destruct extension as [|a s]; simpl; [done |].
  by destruct (Ascii.eqb a ".").
Qed.

Lemma normalize_ext_dot (extension : string) :
  ∃ rest, normalize_ext extension = String "." rest.
Proof.
  unfold normalize_ext. destruct extension as [|a s]; simpl; [by eexists |].
  destruct (Ascii.eqb_spec a ".") as [-> | _]; by eexists.
Qed.

(** A match means the suffix and the extension agree up to the chosen
    case rule; in particular in length and in where their dots are. *)
Lemma match_ext_true (args : Args) (path : string) :
  match_ext args path = true →
  lower (suffix path) = lower (normalize_ext (extension args)).
Proof.
  unfold match_ext. destruct (case_sensitive args); intros H.
  - apply String.eqb_eq in H. by rewrite H.
  - by apply String.eqb_eq in H.
Qed.

(** ** The loop of [main] *)

Lemma name_destination_free (w : World) (args : Args) (target_dir : gset string)
    (e : Entry) (dest : string) :
  name_destination w args target_dir e = Ok dest → dest ∉ target_dir.
Proof.
  unfold name_destination. destruct (negb _).
  - destruct (compute_file_hash _ _ _) as [full_hash | err]; [| done].
    intros [= <-]. apply prefix_loop_dest_free.
  - intros [= <-]. apply get_unique_path_free.
Qed.


Lemma try_body_ok (w : World) (args : Args) (target_dir target_dir' : gset string)
    (e : Entry) (dest : string) :
  try_body w args target_dir e = Ok (dest, target_dir') ↔
  name_destination w args target_dir e = Ok dest ∧
  shutil_error w (move args) e dest target_dir = None ∧
  target_dir' = {[dest]} ∪ after_removal args target_dir e.
Proof.
  unfold try_body, place, mbind, result_bind.
  destruct (name_destination _ _ _ _) as [d | err].
  - destruct (shutil_error _ _ _ d _) as [err |] eqn:Hs.
    + split; [done |]. intros ([= ->] & Hn & _). congruence.
    + split.
      * intros [= -> <-]. done.
      * intros ([= ->] & _ & ->). done.
  - split; [done |]. by intros [[=] _].
Qed.

Lemma try_body_raise (w : World) (args : Args) (target_dir : gset string)
    (e : Entry) (err : exn) :
  try_body w args target_dir e = Raise err ↔
  name_destination w args target_dir e = Raise err ∨
  ∃ dest, name_destination w args target_dir e = Ok dest ∧
          shutil_error w (move args) e dest target_dir = Some err.
Proof.
  unfold try_body, place, mbind, result_bind.
  destruct (name_destination _ _ _ _) as [d | err'].
  - destruct (shutil_error _ _ _ d _) as [err' |] eqn:Hs.
    + split.
      * intros [= ->]. right. by exists d.
      * intros [[=] | (d' & [= <-] & Hd)]. congruence.
    + split; [done |]. intros [[=] | (d' & [= <-] & Hd)]. congruence.
  - split; [intros [= ->]; by left |].
    intros [[= ->] | (d & Hd & _)]; [done | discriminate Hd].
Qed.





(** ** The numeric-suffix loop among probes that can raise *)

Section FullSuffixLoop.
Context (env : Env) (dest_dir : gset string) (base ext : string).

(** Where the loop over answering probes returns [p], the loop over
    probes that can raise ends with the same fuel: on [p], or on the
    exception of a name it reached before. *)
Lemma full_loop_refines (fuel : nat) (filename : string) (counter : Z) (p : string) :
  get_unique_path_loop dest_dir base ext fuel filename counter = Some p →
  ∃ r, Full.get_unique_path_loop env dest_dir base ext fuel filename counter = Some r ∧
       (∀ dest, r = Ok dest → dest = p ∧ exists_error env dest = None) ∧
       (∀ err, r = Raise err →
          ∃ probed, exists_error env probed = Some err ∧
            (probed = filename ∨
             filename ∈ dest_dir ∧
             ∃ n, (counter ≤ n)%Z ∧ probed = suffixed base ext n ∧
                  ∀ m, (counter ≤ m < n)%Z → suffixed base ext m ∈ dest_dir)) ∧
       (probes_answer env → r = Ok p).
Proof.
  revert filename counter.
  induction fuel as [|fuel IH]; intros filename counter; simpl; [done |].
  destruct (exists_error env filename) as [err |] eqn:Herr.
  - intros _. exists (Raise err). split; [done |]. split; [done |]. split.
    + intros err' [= <-]. exists filename. split; [done | by left].
    + intros Hall. by rewrite Hall in Herr.
  - case_bool_decide as Hin.
    + intros Hp. destruct (IH _ _ Hp) as (r & Hr & Hok & Hraise & Hall).
      exists r. split; [done |]. split; [done |]. split; [| done].
      intros err Heq. destruct (Hraise err Heq) as (probed & Hprobed & Hwhere).
      exists probed. split; [done |]. right. split; [done |].
      destruct Hwhere as [-> | (Hc & n & Hn & -> & Hbelow)].
      * exists counter. split; [lia |]. split; [done |]. intros m Hm. lia.
      * exists n. split; [lia |]. split; [done |]. intros m Hm.
        destruct (decide (m = counter)) as [-> | Hne]; [done |].
        apply Hbelow. lia.
    + intros [= <-]. exists (Ok filename). split; [done |]. split; [| done].
      by intros dest [= <-].
Qed.

Lemma full_loop_mono (fuel fuel' : nat) (filename : string) (counter : Z) (r : result string) :
  fuel ≤ fuel' →
  Full.get_unique_path_loop env dest_dir base ext fuel filename counter = Some r →
  Full.get_unique_path_loop env dest_dir base ext fuel' filename counter = Some r.
Proof.
  revert fuel' filename counter.
  induction fuel as [|fuel IH]; intros fuel' filename counter Hle; simpl; [done |].
  destruct fuel' as [|fuel']; [lia |]. simpl.
  destruct (exists_error env filename); [done |].
  case_bool_decide; [| done]. apply IH. lia.
Qed.

Lemma probed_next (filename : string) (counter : Z) (i : nat) :
  probed base ext (suffixed base ext counter) (counter + 1) i
  = probed base ext filename counter (S i).
Proof.
  destruct i as [|i]; cbn [probed]; [by rewrite Z.add_0_r |].
  f_equal. lia.
Qed.

(** How the loop runs: it tests [probed 0], [probed 1], ...; the tests
    before the [k]-th answer that the name is taken, and the [k]-th
    raises or answers that the name is free. *)
Lemma full_loop_shape (fuel : nat) (filename : string) (counter : Z) (r : result string) :
  Full.get_unique_path_loop env dest_dir base ext fuel filename counter = Some r →
  ∃ k, k < fuel ∧
    (∀ i, i < k →
          exists_error env (probed base ext filename counter i) = None ∧
          probed base ext filename counter i ∈ dest_dir) ∧
    ((∃ err, exists_error env (probed base ext filename counter k) = Some err ∧
             r = Raise err) ∨
     (exists_error env (probed base ext filename counter k) = None ∧
      (probed base ext filename counter k ∉ dest_dir) ∧
      r = Ok (probed base ext filename counter k))).
Proof.
  revert filename counter.
  induction fuel as [|fuel IH]; intros filename counter; simpl; [done |].
  destruct (exists_error env filename) as [err |] eqn:Herr.
  - intros [= <-]. exists 0. split; [lia |]. split; [intros i Hi; lia |].
    left. by exists err.
  - case_bool_decide as Hin.
    + intros Hr. fold (suffixed base ext counter) in Hr.
      destruct (IH _ _ Hr) as (k & Hk & Hbefore & Hend).
      exists (S k). split; [lia |]. split.
      * intros [|i] Hi; [done |]. rewrite <- (probed_next filename). apply Hbefore. lia.
      * by rewrite <- (probed_next filename).
    + intros [= <-]. exists 0. split; [lia |]. split; [intros i Hi; lia |].
      by right.
Qed.

Lemma full_loop_run (k fuel : nat) (filename : string) (counter : Z) (r : result string) :
  k < fuel →
  (∀ i, i < k →
        exists_error env (probed base ext filename counter i) = None ∧
        probed base ext filename counter i ∈ dest_dir) →
  (∃ err, exists_error env (probed base ext filename counter k) = Some err ∧
          r = Raise err) ∨
  (exists_error env (probed base ext filename counter k) = None ∧
   (probed base ext filename counter k ∉ dest_dir) ∧
   r = Ok (probed base ext filename counter k)) →
  Full.get_unique_path_loop env dest_dir base ext fuel filename counter = Some r.
Proof.
  revert fuel filename counter.
  induction k as [|k IH]; intros fuel filename counter Hfuel Hbefore Hend;
    (destruct fuel as [|fuel]; [lia |]); simpl.
  - cbn [probed] in Hend.
    destruct Hend as [(err & -> & ->) | (-> & Hfree & ->)]; [done |].
    by rewrite bool_decide_eq_false_2.
  - destruct (Hbefore 0 ltac:(lia)) as [Hans Hin]. cbn [probed] in Hans, Hin.
    rewrite Hans, bool_decide_eq_true_2 by done.
    fold (suffixed base ext counter). apply IH; [lia | |].
    + intros i Hi. rewrite (probed_next filename). apply Hbefore. lia.
    + by rewrite (probed_next filename).
Qed.

End FullSuffixLoop.

(** With more fuel than the directory has entries the loop ends, and
    what it ends on is [Full.get_unique_path]. *)
Lemma full_get_unique_path_fuel (env : Env) (dest_dir : gset string) (filename : string)
    (fuel : nat) :
  size dest_dir < fuel →
  Full.get_unique_path_loop env dest_dir (splitext filename).1 (splitext filename).2
    fuel filename 1 = Some (Full.get_unique_path env dest_dir filename).
Proof.
  intros Hfuel.
  pose proof (get_unique_path_fuel dest_dir filename (S (size dest_dir))) as Hold.
  unfold Full.get_unique_path.
  destruct (splitext filename) as [base ext]. cbn [fst snd] in *.
  destruct (full_loop_refines env dest_dir base ext _ _ _ _ (Hold ltac:(lia)))
    as (r & Hr & _).
  rewrite Hr. cbn [default]. eapply full_loop_mono; [| exact Hr]. lia.
Qed.

(** What [Full.get_unique_path] ends on: the name [get_unique_path]
    picks when every probe up to it answers, and otherwise the exception
    of the first probe that raises. *)
Lemma full_get_unique_path_spec (env : Env) (dest_dir : gset string) (filename : string) :
  (∀ dest, Full.get_unique_path env dest_dir filename = Ok dest →
     dest = get_unique_path dest_dir filename ∧ exists_error env dest = None) ∧
  (∀ err, Full.get_unique_path env dest_dir filename = Raise err →
     ∃ probed, exists_error env probed = Some err ∧
       (probed = filename ∨
        filename ∈ dest_dir ∧
        ∃ n, (1 ≤ n)%Z ∧
             probed = suffixed (splitext filename).1 (splitext filename).2 n ∧
             ∀ m, (1 ≤ m < n)%Z →
                  suffixed (splitext filename).1 (splitext filename).2 m ∈ dest_dir)) ∧
  (probes_answer env →
   Full.get_unique_path env dest_dir filename = Ok (get_unique_path dest_dir filename)).
Proof.
  pose proof (get_unique_path_fuel dest_dir filename (S (size dest_dir))
                ltac:(lia)) as Hold.
  pose proof (full_get_unique_path_fuel env dest_dir filename (S (size dest_dir))
                ltac:(lia)) as Hnew.
  destruct (full_loop_refines env dest_dir _ _ _ _ _ _ Hold)
    as (r & Hr & Hok & Hraise & Hall).
  rewrite Hnew in Hr. injection Hr as <-. done.
Qed.

Lemma full_get_unique_path_free (env : Env) (dest_dir : gset string) (filename dest : string) :
  Full.get_unique_path env dest_dir filename = Ok dest →
  (dest ∉ dest_dir) ∧ exists_error env dest = None.
Proof.
  intros H. apply full_get_unique_path_spec in H as [-> Hans].
  split; [apply get_unique_path_free | done].
Qed.

(** ** The prefix loop among probes that can raise *)

Lemma full_prefix_loop_raise (env : Env) (target_dir : gset string)
    (full_hash name : string) (p : nat) (err : exn) :
  exists_error env (prefixed full_hash name p) = Some err →
  Full.prefix_loop env target_dir full_hash name p = Raise err.
Proof.
  intros Herr. unfold prefixed in *. rewrite Full.prefix_loop_equation_1.
  rewrite Herr. by simp prefix_loop.
Qed.

Lemma full_prefix_loop_free (env : Env) (target_dir : gset string)
    (full_hash name : string) (p : nat) :
  exists_error env (prefixed full_hash name p) = None →
  prefixed full_hash name p ∉ target_dir →
  Full.prefix_loop env target_dir full_hash name p = Ok (prefixed full_hash name p).
Proof.
  intros Hans Hfree. unfold prefixed in *. rewrite Full.prefix_loop_equation_1.
  rewrite Hans. simp prefix_loop.
  rewrite bool_decide_eq_false_2 by done. by simp prefix_loop.
Qed.

Lemma full_prefix_loop_retry (env : Env) (target_dir : gset string)
    (full_hash name : string) (p : nat) :
  exists_error env (prefixed full_hash name p) = None →
  prefixed full_hash name p ∈ target_dir →
  p < String.length full_hash →
  Full.prefix_loop env target_dir full_hash name p
  = Full.prefix_loop env target_dir full_hash name (S p).
Proof.
  intros Hans Hin Hlt. unfold prefixed in *.
  rewrite (Full.prefix_loop_equation_1 env target_dir full_hash name p).
  rewrite Hans. simp prefix_loop.
  rewrite bool_decide_eq_true_2 by done. simp prefix_loop.
  destruct (decide _) as [Hle | Hnle]; [lia |]. by simp prefix_loop.
Qed.

Lemma full_prefix_loop_exhausted (env : Env) (target_dir : gset string)
    (full_hash name : string) (p : nat) :
  exists_error env (prefixed full_hash name p) = None →
  prefixed full_hash name p ∈ target_dir →
  String.length full_hash ≤ p →
  Full.prefix_loop env target_dir full_hash name p
  = Full.get_unique_path env target_dir (full_hash +:+ "_" +:+ name).
Proof.
  intros Hans Hin Hle. unfold prefixed in *.
  rewrite (Full.prefix_loop_equation_1 env target_dir full_hash name p).
  rewrite Hans. simp prefix_loop.
  rewrite bool_decide_eq_true_2 by done. simp prefix_loop.
  destruct (decide _) as [Hle' | Hnle]; [| lia]. simp prefix_loop.
  by rewrite slice_to_all.
Qed.


(** A destination the loop returns is the one [prefix_loop] picks, and
    its own probe answered; when every probe answers, it is returned. *)
Lemma full_prefix_loop_refines (env : Env) (target_dir : gset string)
    (full_hash name : string) (p : nat) :
  (∀ dest, Full.prefix_loop env target_dir full_hash name p = Ok dest →
     dest = dest_path (prefix_loop target_dir full_hash name p) ∧
     exists_error env dest = None) ∧
  (probes_answer env →
   Full.prefix_loop env target_dir full_hash name p
   = Ok (dest_path (prefix_loop target_dir full_hash name p))).
Proof.
  remember (String.length full_hash - p) as gap eqn:Hgap.
  revert p Hgap. induction gap as [|gap IH]; intros p Hgap;
    (destruct (exists_error env (prefixed full_hash name p)) as [err |] eqn:Hans;
     [ rewrite (full_prefix_loop_raise _ _ _ _ _ _ Hans); split;
       [done | intros Hall; by rewrite Hall in Hans]
     | destruct (decide (prefixed full_hash name p ∈ target_dir)) as [Hin | Hfree];
       [| rewrite full_prefix_loop_free, prefix_loop_free by done;
          cbn [dest_path]; split; [by intros dest [= <-] | done] ] ]).
  - rewrite full_prefix_loop_exhausted, prefix_loop_exhausted by (done || lia).
    cbn [dest_path]. split.
    + intros dest Hd. by apply full_get_unique_path_spec in Hd.
    + apply full_get_unique_path_spec.
  - rewrite full_prefix_loop_retry, prefix_loop_retry by (done || lia).
    cbn zeta. cbn [dest_path]. apply IH. lia.
Qed.

(** ** Naming among probes that can raise *)

Lemma full_name_destination_refines (env : Env) (w : World) (args : Args)
    (target_dir : gset string) (e : Entry) :
  hashlib w = env_hashlib env →
  (∀ dest, Full.name_destination env args target_dir e = Ok dest →
     name_destination w args target_dir e = Ok dest ∧ exists_error env dest = None) ∧
  (probes_answer env →
   Full.name_destination env args target_dir e = name_destination w args target_dir e).
Proof.
  intros Hlib. unfold Full.name_destination, name_destination. rewrite Hlib.
  destruct (negb _).
  - destruct (compute_file_hash _ _ _) as [full_hash | err]; [| done].
    unfold mbind, result_bind.
    destruct (full_prefix_loop_refines env target_dir full_hash
                (name (file_path e)) (Z.abs_nat (prefix_length args))) as [Hok Hall].
    split; [| done].
    intros dest Hd. apply Hok in Hd as [-> Hans]. done.
  - destruct (full_get_unique_path_spec env target_dir (name (file_path e)))
      as (Hok & _ & Hall).
    split; [| done].
    intros dest Hd. apply Hok in Hd as [-> Hans]. done.
Qed.

Lemma full_name_destination_free (env : Env) (args : Args)
    (target_dir : gset string) (e : Entry) (dest : string) :
  Full.name_destination env args target_dir e = Ok dest →
  (dest ∉ target_dir) ∧ exists_error env dest = None.
Proof.
  intros Hd.
  destruct (full_name_destination_refines env
              {| hashlib := env_hashlib env; shutil_error := fun _ _ _ _ => None |}
              args target_dir e eq_refl) as [Hok _].
  apply Hok in Hd as [Hname Hans]. split; [| done].
  by apply name_destination_free in Hname.
Qed.

(** ** The loop of [main] among calls that can fail *)

(** What every turn of the loop keeps, the whole run keeps, however it
    ends. *)
Lemma full_main_loop_inv (env : Env) (args : Args) (P : State → Prop)
    (entries : list Entry) (st : State) :
  (∀ st e, P st → P (run_state (Full.loop_body env args st e))) →
  P st → P (run_state (Full.main_loop env args st entries)).
Proof.
  intros Hstep. revert st.
  induction entries as [|e entries IH]; intros st Hst; [done |].
  cbn [Full.main_loop]. specialize (Hstep st e Hst).
  destruct (Full.loop_body env args st e) as [st' | st' err]; [| done].
  by apply IH.
Qed.

Lemma full_main_state (env : Env) (args : Args) (target_dir : gset string)
    (entries : list Entry) :
  run_state (Full.main env args target_dir entries)
  = run_state (Full.main_loop env args
                 {| target := target_dir; processed_files := 0; printed := [] |}
                 entries).
Proof.
  unfold Full.main. destruct (Full.main_loop _ _ _ _) as [st | st err]; [| done].
  by destruct (report_error env (processed_files st)).
Qed.

(** The three ways through the [try] block. *)
Lemma full_loop_body_name_raise (env : Env) (args : Args) (st : State) (e : Entry)
    (err : exn) :
  is_file_error env e = None → selected args e = true →
  Full.name_destination env args (target st) e = Raise err →
  Full.loop_body env args st e
  = match print_error env (Failure e err) with
    | Some err' => Died st err'
    | None => Finished (print_line st (Failure e err))
    end.
Proof.
  intros Hfile Hsel Hname.
  unfold Full.loop_body, Full.process_file, Full.try_block.
  by rewrite Hfile, Hsel, Hname.
Qed.

Lemma full_loop_body_place_raise (env : Env) (args : Args) (st : State) (e : Entry)
    (dest : string) (err : exn) (target_dir' : gset string) :
  is_file_error env e = None → selected args e = true →
  Full.name_destination env args (target st) e = Ok dest →
  shutil env (move args) e dest (target st) = (Some err, target_dir') →
  Full.loop_body env args st e
  = match print_error env (Failure e err) with
    | Some err' => Died (set_target st target_dir') err'
    | None => Finished (print_line (set_target st target_dir') (Failure e err))
    end.
Proof.
  intros Hfile Hsel Hname Hplace.
  unfold Full.loop_body, Full.process_file, Full.try_block.
  by rewrite Hfile, Hsel, Hname, Hplace.
Qed.

Lemma full_loop_body_placed (env : Env) (args : Args) (st : State) (e : Entry)
    (dest : string) (target_dir' : gset string) :
  is_file_error env e = None → selected args e = true →
  Full.name_destination env args (target st) e = Ok dest →
  shutil env (move args) e dest (target st) = (None, target_dir') →
  Full.loop_body env args st e
  = match print_error env (Success e dest) with
    | None =>
        Finished (print_line (count_up (set_target st target_dir')) (Success e dest))
    | Some err =>
        match print_error env (Failure e err) with
        | Some err' => Died (count_up (set_target st target_dir')) err'
        | None =>
            Finished (print_line (count_up (set_target st target_dir')) (Failure e err))
        end
    end.
Proof.
  intros Hfile Hsel Hname Hplace.
  unfold Full.loop_body, Full.process_file, Full.try_block.
  rewrite Hfile, Hsel, Hname, Hplace. cbn zeta.
  by destruct (print_error env (Success e dest)).
Qed.

(** One turn, sorted by what happened in it. *)
Lemma full_loop_body_cases (env : Env) (args : Args) (st : State) (e : Entry)
    (P : Run → Prop) :
  (∀ err, is_file_error env e = Some err → P (Died st err)) →
  (is_file_error env e = None → selected args e = false → P (Finished st)) →
  (∀ st' cause,
     is_file_error env e = None → selected args e = true →
     (st' = st ∨ ∃ target_dir' dest,
        Full.name_destination env args (target st) e = Ok dest ∧
        (st' = set_target st target_dir' ∧
         shutil env (move args) e dest (target st) = (Some cause, target_dir') ∨
         st' = count_up (set_target st target_dir') ∧
         shutil env (move args) e dest (target st) = (None, target_dir') ∧
         print_error env (Success e dest) = Some cause)) →
     (∀ err, print_error env (Failure e cause) = Some err → P (Died st' err)) ∧
     (print_error env (Failure e cause) = None →
      P (Finished (print_line st' (Failure e cause))))) →
  (∀ target_dir' dest,
     is_file_error env e = None → selected args e = true →
     Full.name_destination env args (target st) e = Ok dest →
     shutil env (move args) e dest (target st) = (None, target_dir') →
     print_error env (Success e dest) = None →
     P (Finished (print_line (count_up (set_target st target_dir')) (Success e dest)))) →
  P (Full.loop_body env args st e).
Proof.
  intros Hdied Hskip Hfail Hok.
  destruct (is_file_error env e) as [err |] eqn:Hfile.
  { unfold Full.loop_body. rewrite Hfile. by apply Hdied. }
  destruct (selected args e) eqn:Hsel.
  2: { unfold Full.loop_body. rewrite Hfile, Hsel. by apply Hskip. }
  destruct (Full.name_destination env args (target st) e) as [dest | cause] eqn:Hname.
  2: { rewrite (full_loop_body_name_raise _ _ _ _ _ Hfile Hsel Hname).
       destruct (Hfail st cause eq_refl eq_refl (or_introl eq_refl)) as [Hd Hf].
       destruct (print_error env (Failure e cause)); [by apply Hd | by apply Hf]. }
  destruct (shutil env (move args) e dest (target st)) as [[cause |] target_dir']
    eqn:Hplace.
  - rewrite (full_loop_body_place_raise _ _ _ _ _ _ _ Hfile Hsel Hname Hplace).
    destruct (Hfail (set_target st target_dir') cause eq_refl eq_refl) as [Hd Hf].
    { right. exists target_dir', dest. split; [done |]. by left. }
    destruct (print_error env (Failure e cause)); [by apply Hd | by apply Hf].
  - rewrite (full_loop_body_placed _ _ _ _ _ _ Hfile Hsel Hname Hplace).
    destruct (print_error env (Success e dest)) as [cause |] eqn:Hprint.
    + destruct (Hfail (count_up (set_target st target_dir')) cause eq_refl eq_refl)
        as [Hd Hf].
      { right. exists target_dir', dest. split; [done |]. by right. }
      destruct (print_error env (Failure e cause)); [by apply Hd | by apply Hf].
    + by apply Hok.
Qed.

(** *** Distinct destinations *)






(** *** The directory and the counter *)

Lemma grow_inv_failure (target_dir : gset string) (st : State) (e : Entry) (err : exn) :
  grow_inv target_dir st → grow_inv target_dir (print_line st (Failure e err)).
Proof.
  unfold grow_inv. cbn [print_line printed target processed_files].
  rewrite omap_app. cbn. by rewrite app_nil_r.
Qed.

Lemma grow_inv_success (target_dir : gset string) (st : State) (e : Entry) (dest : string) :
  grow_inv target_dir st → dest ∈ target st → dest ∉ target_dir →
  grow_inv target_dir (print_line st (Success e dest)).
Proof.
  intros (Hsub & Hsize & Hmem) Hin Hnew. unfold grow_inv.
  cbn [print_line printed target processed_files]. rewrite omap_app. cbn.
  split; [done |]. split; [done |].
  intros d. rewrite elem_of_app, list_elem_of_singleton.
  intros [Hd | ->]; [by apply Hmem | done].
Qed.

Lemma grow_inv_placed (target_dir : gset string) (st : State) (dest : string) :
  grow_inv target_dir st → dest ∉ target st →
  grow_inv target_dir (count_up (set_target st ({[dest]} ∪ target st))).
Proof.
  intros (Hsub & Hsize & Hmem) Hfree. unfold grow_inv.
  cbn [count_up set_target printed target processed_files].
  split; [| split].
  - intros d Hd. apply elem_of_union_r. by apply Hsub.
  - rewrite size_union, size_singleton.
    + lia.
    + intros d. rewrite elem_of_singleton. by intros ->.
  - intros d Hd. destruct (Hmem d Hd) as [Hin Hnot].
    split; [by apply elem_of_union_r | done].
Qed.

Lemma grow_inv_same (target_dir : gset string) (st : State) :
  grow_inv target_dir st → grow_inv target_dir (set_target st (target st)).
Proof. done. Qed.

(** While a successful placement adds its destination and nothing else,
    and a failed one changes nothing, the directory holds what it held
    at the start and one more entry per counted file. *)
Lemma full_loop_body_grow_inv (env : Env) (args : Args) (target_dir : gset string)
    (st : State) (e : Entry) :
  placement_exact env →
  grow_inv target_dir st →
  grow_inv target_dir (run_state (Full.loop_body env args st e)).
Proof.
  intros Hexact Hinv.
  assert (∀ dest target_dir',
            Full.name_destination env args (target st) e = Ok dest →
            shutil env (move args) e dest (target st) = (None, target_dir') →
            (dest ∉ target st) ∧ (dest ∉ target_dir) ∧
            target_dir' = {[dest]} ∪ target st) as Hplaced.
  { intros dest target_dir' Hname Hpl.
    apply full_name_destination_free in Hname as [Hfree _].
    split; [done |]. split.
    - intros Hd. destruct Hinv as [Hsub _]. by apply Hfree, Hsub.
    - destruct (Hexact (move args) e dest (target st)) as [Hok | [err Herr]];
        congruence. }
  apply (full_loop_body_cases env args st e
           (fun r => grow_inv target_dir (run_state r))); [done | done | |].
  - intros st' cause _ _ Hst'.
    assert (grow_inv target_dir st') as Hinv'.
    { destruct Hst' as [-> | (target_dir' & dest & Hname & [[-> Hpl] | (-> & Hpl & _)])];
        [done | |].
      - destruct (Hexact (move args) e dest (target st)) as [Hok | [err Herr]];
          [congruence |].
        rewrite Hpl in Herr. injection Herr as _ ->. by apply grow_inv_same.
      - destruct (Hplaced _ _ Hname Hpl) as (Hfree & _ & ->).
        by apply grow_inv_placed. }
    split; intros; cbn [run_state]; [done | by apply grow_inv_failure].
  - intros target_dir' dest _ _ Hname Hpl _. cbn [run_state].
    destruct (Hplaced _ _ Hname Hpl) as (Hfree & Hnew & ->).
    apply grow_inv_success; [by apply grow_inv_placed | | done].
    cbn [count_up set_target target]. apply elem_of_union_l.
    by apply elem_of_singleton.
Qed.

(** *** Runs that reach the report *)





(** *** Runs that die *)


(** *** The run of [main] as a run among calls that do not fail *)

Lemma full_loop_body_plain (w : World) (args : Args) (st : State) (e : Entry) :
  Full.loop_body (env_of_world w args) args st e = Finished (loop_body w args st e).
Proof.
  unfold Full.loop_body, loop_body. cbn [env_of_world is_file_error].
  destruct (selected args e); [| done].
  unfold Full.process_file, Full.try_block, process_file, place.
  destruct (full_name_destination_refines (env_of_world w args) w args (target st) e
              eq_refl) as [_ Hsame].
  rewrite Hsame by done.
  destruct (name_destination w args (target st) e) as [dest | err]; [| done].
  unfold mbind, result_bind. cbn [env_of_world shutil print_error].
  destruct st as [target_dir count lines]. cbn [target].
  by destruct (shutil_error w (move args) e dest target_dir).
Qed.

Lemma full_main_plain (w : World) (args : Args) (target_dir : gset string)
    (entries : list Entry) :
  Full.main (env_of_world w args) args target_dir entries
  = Finished (main w args target_dir entries).
Proof.
  unfold Full.main, main.
  assert (∀ st, Full.main_loop (env_of_world w args) args st entries
                = Finished (fold_left (loop_body w args) entries st)) as ->; [| done].
  induction entries as [|e entries IH]; intros st; [done |].
  cbn [Full.main_loop fold_left]. rewrite full_loop_body_plain. apply IH.
Qed.

(** * The claims *)

(** C8, counterexample to the claim as stated. On a file system whose
    names have at most 255 bytes, the target directory holds a file
    whose name has 255 bytes. The first existence test answers; the
    second, on a name of 257 bytes, raises. With whatever number of
    tests, the loop returns no name. *)
Lemma long_name_probe_raises :
  String.length long_name = 255 ∧
  (∀ fuel dest,
     Full.get_unique_path_loop name_limit_env {[long_name]}
       (splitext long_name).1 (splitext long_name).2 fuel long_name 1
     ≠ Some (Ok dest)) ∧
  Full.get_unique_path name_limit_env {[long_name]} long_name
  = Raise (OSError "[Errno 36] File name too long").
Proof.
  split; [reflexivity |]. split; [| by vm_compute].
  intros [|[|fuel]] dest; by vm_compute.
Qed.

(** C8, as the code has it. For every file name and every (finite)
    target directory, the loop of [get_unique_path] started at counter 1
    tests the given name and then the suffixed names in turn, and ends
    at the first test that does not answer that the name is taken: the
    tests before it, no more than the directory has entries, all
    answered so, and with enough fuel for them and one test more the
    loop ends, and more fuel never changes how. If that test raises, the
    loop ends with its exception and returns no name; if it answers that
    the name is free, the loop returns that name, the one
    [get_unique_path] picks. *)
Theorem suffix_probing_terminates (env : Env) (dest_dir : gset string) (filename : string) :
  let name_at := probed (splitext filename).1 (splitext filename).2 filename 1 in
  ∃ (k : nat) (r : result string),
    k ≤ size dest_dir ∧
    (∀ i, i < k → exists_error env (name_at i) = None ∧ name_at i ∈ dest_dir) ∧
    (∀ fuel, k < fuel →
       Full.get_unique_path_loop env dest_dir (splitext filename).1 (splitext filename).2
         fuel filename 1 = Some r) ∧
    Full.get_unique_path env dest_dir filename = r ∧
    ((∃ err, exists_error env (name_at k) = Some err ∧ r = Raise err) ∨
     (exists_error env (name_at k) = None ∧ (name_at k ∉ dest_dir) ∧
      r = Ok (name_at k) ∧ name_at k = get_unique_path dest_dir filename)).
Proof.
  intros name_at.
  pose proof (full_get_unique_path_fuel env dest_dir filename (S (size dest_dir))
                ltac:(lia)) as Hrun.
  destruct (full_loop_shape env dest_dir _ _ _ _ _ _ Hrun) as (k & Hk & Hbefore & Hend).
  exists k, (Full.get_unique_path env dest_dir filename).
  split; [lia |]. split; [exact Hbefore |]. split; [| split; [done |]].
  - intros fuel Hfuel. by apply (full_loop_run env dest_dir _ _ k).
  - destruct Hend as [Hraise | (Hans & Hfree & Hr)]; [by left | right].
    split; [done |]. split; [done |]. split; [done |].
    by apply full_get_unique_path_spec in Hr as [Heq _].
Qed.

Lemma suffix_probing_terminates_witness :
  ∃ k : nat,
    k ≤ 2 ∧
    ∀ fuel, k < fuel →
      Full.get_unique_path_loop plain_env {["a.txt"; "a_1.txt"]} "a" ".txt" fuel "a.txt" 1
      = Some (Ok "a_2.txt").
Proof.
  destruct (suffix_probing_terminates plain_env {["a.txt"; "a_1.txt"]} "a.txt")
    as (k & r & Hk & _ & Hfuel & Hr & _).
  exists k. split; [exact Hk |].
  intros fuel Hle.
  exact (eq_trans (Hfuel fuel Hle) (f_equal Some (eq_sym Hr))).
Defined.



Example mode_a_three_files :
  printed (main calm (sample_args 0) {["a.txt"]}
             [sample_file "/src/d/a.txt" "y"; sample_file "/src/e/a.txt" "z"])
  = [Success (sample_file "/src/d/a.txt" "y") "a_1.txt";
     Success (sample_file "/src/e/a.txt" "z") "a_2.txt"].
Proof. reflexivity. Qed.



Example mode_b_scenarios :
  mode_b_from ∅ "d41d8cd" "a.txt" 4 = "d41d_a.txt" ∧
  mode_b_from {["d41d_a.txt"]} "d41da00" "a.txt" 4 = "d41da_a.txt" ∧
  mode_b_from {["d41d_a.txt"]} "d41db00" "a.txt" 4 = "d41db_a.txt" ∧
  mode_b_from {["0_a.txt"]} "0" "a.txt" 1 = "0_a_1.txt".
Proof. repeat split; reflexivity. Qed.

(** C4, as the code has it. The tracked prefix length starts at |L| >= 1
    and takes the values |L|, |L|+1, ..., |L|+k, where k is the number
    of collisions met below the digest's length: each value but the last
    is left because the name cut at it is taken and it is below
    len(digest), and the last is either the first whose name is free or,
    with a taken name, one of at least len(digest), where
    [get_unique_path] takes over. So it goes up by exactly one per such
    collision and never shrinks; it stays within
    [1, max(|L|, len(digest))], hence within [1, len(digest)] whenever
    |L| <= len(digest); and the prefix actually cut from the digest
    never has more than len(digest) characters. *)
Theorem prefix_length_bounds (target_dir : gset string) (full_hash name : string) (L : Z) :
  L ≠ 0%Z →
  let r := prefix_loop target_dir full_hash name (Z.abs_nat L) in
  ∃ k,
    tracked r = seq (Z.abs_nat L) (S k) ∧
    (∀ i, i < k →
          prefixed full_hash name (Z.abs_nat L + i) ∈ target_dir ∧
          Z.abs_nat L + i < String.length full_hash) ∧
    (if fell_back r
     then prefixed full_hash name (Z.abs_nat L + k) ∈ target_dir ∧
          String.length full_hash ≤ Z.abs_nat L + k
     else prefixed full_hash name (Z.abs_nat L + k) ∉ target_dir) ∧
    (∀ p, p ∈ tracked r →
          1 ≤ p ≤ Z.abs_nat L `max` String.length full_hash ∧
          String.length (slice_to p full_hash) ≤ String.length full_hash) ∧
    (Z.abs_nat L ≤ String.length full_hash →
     ∀ p, p ∈ tracked r → 1 ≤ p ≤ String.length full_hash) ∧
    (fell_back r = true → String.length full_hash ≤ Z.abs_nat L + k).
Proof.
  intros HL r.
  destruct (prefix_loop_shape target_dir full_hash name (Z.abs_nat L))
    as (k & Htr & Hmax & Hbefore & Hend).
  fold r in Htr, Hend. exists k. split; [done |]. split; [done |].
  assert (∀ p, p ∈ tracked r → Z.abs_nat L ≤ p ≤ Z.abs_nat L + k) as Hrange.
  { intros p. rewrite Htr, elem_of_seq. lia. }
  split; [| split; [| split]].
  - destruct (fell_back r); tauto.
  - intros p Hp. apply Hrange in Hp. rewrite slice_to_length. lia.
  - intros Hle p Hp. apply Hrange in Hp. lia.
  - intros Hfb. rewrite Hfb in Hend. tauto.
Qed.

Lemma prefix_length_bounds_witness :
  ∃ k, k = 1 ∧
    tracked (prefix_loop {["d41d_a.txt"]} "d41da00" "a.txt" (Z.abs_nat (-4)))
    = seq 4 (S k) ∧
    (∀ i, i < k → prefixed "d41da00" "a.txt" (4 + i) ∈ ({["d41d_a.txt"]} : gset string)) ∧
    prefixed "d41da00" "a.txt" (4 + k) ∉ ({["d41d_a.txt"]} : gset string).
Proof.
  destruct (prefix_length_bounds {["d41d_a.txt"]} "d41da00" "a.txt" (-4))
    as (k & Htr & Hbefore & Hend & _); [discriminate |].
  exists k.
  assert (k = 1) as Hk.
  { apply (f_equal length) in Htr. rewrite length_seq in Htr.
    vm_compute in Htr. by injection Htr as <-. }
  split; [exact Hk |]. split; [exact Htr |].
  split; [intros i Hi; apply (Hbefore i Hi) |].
  exact Hend.
Defined.

(** C4, counterexample to the claim as stated: with L = 5 and the
    one-character digest of an empty file under CRC32 the tracked prefix
    length is 5, above len(digest) = 1, before any fallback. *)
Lemma prefix_length_exceeds_digest :
  compute_file_hash bare_hashlib (Some []) "CRC32" = Ok "0" ∧
  tracked (prefix_loop ∅ "0" "a.txt" (Z.abs_nat 5)) = [5] ∧
  fell_back (prefix_loop ∅ "0" "a.txt" (Z.abs_nat 5)) = false ∧
  ¬ (1 ≤ 5 ≤ String.length "0").
Proof. repeat split; try reflexivity. simpl. lia. Qed.

(** C9. The CRC32 digest of an empty file is the string "0", in either
    spelling of the algorithm name and with any hash library. *)
Theorem crc32_empty_file (lib : Hashlib.Provider) :
  compute_file_hash lib (Some []) "CRC32" = Ok "0" ∧
  compute_file_hash lib (Some []) "crc32" = Ok "0".
Proof. split; reflexivity. Qed.

Example crc32_check_value :
  compute_file_hash bare_hashlib (Some (list_byte_of_string "123456789")) "Crc32"
  = Ok "3421780262".
Proof. reflexivity. Qed.











(** The same run among calls that can fail, and what it lacks of the
    condition below. *)
Example moved_on_takes_away :
  Full.main (env_of_world calm nested_move_args) nested_move_args ∅ nested_run
  = Finished (main calm nested_move_args ∅ nested_run) ∧
  ¬ placement_keeps (env_of_world calm nested_move_args).
Proof.
  split; [apply full_main_plain |]. intros Hkeep.
  destruct (Hkeep true (sample_file "/src/out/3_a.txt" "a") "3_3_a.txt" {["3_a.txt"]})
    as [Hsub _].
  specialize (Hsub "3_a.txt" ltac:(by apply elem_of_singleton)).
  revert Hsub. by vm_compute.
Qed.

(** A destination is reused as well, with nothing leaving the directory,
    when what was placed is a link the existence test does not follow to
    a file. *)
Example dangling_link_destination_reused :
  printed (run_state (Full.main dangling_env move_args ∅ links_run))
  = [ Success (sample_file "/src/links/l.txt" "a") "3_l.txt";
      Success (sample_file "/src/other/l.txt" "123456789") "3_l.txt" ].
Proof. by vm_compute. Qed.








(** * Further properties *)

(** ** More on strings *)

Lemma contains_app (c : ascii) (s t : string) :
  contains c (s +:+ t) = contains c s || contains c t.
Proof.
  induction s as [|a s IH]; [done |].
  rewrite app_cons. cbn [contains]. by rewrite IH, orb_assoc.
Qed.

Lemma all_are_app (c : ascii) (s t : string) :
  all_are c (s +:+ t) = all_are c s && all_are c t.
Proof.
  induction s as [|a s IH]; [done |].
  rewrite app_cons. cbn [all_are]. by rewrite IH, andb_assoc.
Qed.

Lemma rfind_present (c : ascii) (s : string) :
  contains c s = false → (rfind c s = -1)%Z.
Proof.
  induction s as [|a s IH]; cbn [rfind contains]; [done |].
  intros [Ha Hs]%orb_false_elim. rewrite (IH Hs), Ha. done.
Qed.

Lemma rfind_app (c : ascii) (s t : string) :
  rfind c (s +:+ t)
  = if (0 <=? rfind c t)%Z
    then (Z.of_nat (String.length s) + rfind c t)%Z
    else rfind c s.
Proof.
  induction s as [|a s IH].
  - rewrite app_empty_l. cbn [String.length]. destruct (Z.leb_spec 0 (rfind c t)); [lia |].
    pose proof (rfind_bounds c t). cbn [rfind]. lia.
  - rewrite app_cons. cbn [rfind String.length]. rewrite IH.
    destruct (Z.leb_spec 0 (rfind c t)) as [Ht | Ht].
    + rewrite (proj2 (Z.leb_le 0 _)) by lia. lia.
    + done.
Qed.


Lemma slice_from_app_le (n : nat) (s t : string) :
  n ≤ String.length s → slice_from n (s +:+ t) = slice_from n s +:+ t.
Proof.
  revert s. induction n as [|n IH]; intros s Hn.
  - by destruct s.
  - destruct s as [|a s]; simpl in Hn; [lia |].
    rewrite app_cons. cbn [slice_from]. apply IH. lia.
Qed.

Lemma slice_from_app_length (s t : string) :
  slice_from (String.length s) (s +:+ t) = t.
Proof.
  rewrite slice_from_app_le by done.
  replace (slice_from (String.length s) s) with "".
  - done.
  - symmetry. induction s as [|a s IH]; [done | exact IH].
Qed.

Lemma slice_from_app_ge (n : nat) (s t : string) :
  slice_from (String.length s + n) (s +:+ t) = slice_from n t.
Proof.
  induction s as [|a s IH]; [done |].
  rewrite app_cons. exact IH.
Qed.

Lemma slice_to_app_le (n : nat) (s t : string) :
  n ≤ String.length s → slice_to n (s +:+ t) = slice_to n s.
Proof.
  revert s. induction n as [|n IH]; intros s Hn.
  - by destruct s, t.
  - destruct s as [|a s]; simpl in Hn; [lia |].
    rewrite app_cons. cbn [slice_to]. by rewrite IH by lia.
Qed.

Lemma slice_to_app_length (s t : string) :
  slice_to (String.length s) (s +:+ t) = s.
Proof. rewrite slice_to_app_le by done. by apply slice_to_all. Qed.

Lemma slice_to_app_ge (n : nat) (s t : string) :
  slice_to (String.length s + n) (s +:+ t) = s +:+ slice_to n t.
Proof.
  induction s as [|a s IH]; [done |].
  rewrite !app_cons. cbn [String.length Nat.add slice_to]. by rewrite IH.
Qed.

Lemma contains_slice_to (c : ascii) (n : nat) (s : string) :
  contains c s = false → contains c (slice_to n s) = false.
Proof.
  intros Hs. rewrite <- (slice_to_from n s), contains_app in Hs.
  by apply orb_false_elim in Hs as [? _].
Qed.

Lemma contains_slice_from (c : ascii) (n : nat) (s : string) :
  contains c s = false → contains c (slice_from n s) = false.
Proof.
  intros Hs. rewrite <- (slice_to_from n s), contains_app in Hs.
  by apply orb_false_elim in Hs as [_ ?].
Qed.

Lemma str_forall_excludes (P : ascii → bool) (c : ascii) (s : string) :
  str_forall P s = true → P c = false → contains c s = false.
Proof.
  intros Hs Hc. induction s as [|a s IH]; [done |].
  cbn [str_forall contains] in *. apply andb_prop in Hs as [Ha Hs].
  rewrite (IH Hs), orb_false_r.
  destruct (Ascii.eqb_spec a c) as [-> | _]; [congruence | done].
Qed.

Lemma decimal_value_digits (acc : N) (s : string) (v : N) :
  decimal_value acc s = Some v → str_forall is_decimal_digit s = true.
Proof.
  revert acc. induction s as [|a s IH]; intros acc; [done |].
  cbn [decimal_value str_forall]. destruct (is_decimal_digit a); [| done].
  intros H. by rewrite (IH _ H).
Qed.

(** The numeral of a non-negative integer holds digits only. *)
Lemma str_digits (n : Z) : (0 ≤ n)%Z → str_forall is_decimal_digit (str n) = true.
Proof. intros Hn. eapply decimal_value_digits, str_decimal, Hn. Qed.

Lemma str_no_char (c : ascii) (n : Z) :
  (0 ≤ n)%Z → is_decimal_digit c = false → contains c (str n) = false.
Proof. intros Hn Hc. eapply str_forall_excludes; [by apply str_digits | done]. Qed.

Lemma rfind_present_nonneg (c : ascii) (s : string) :
  contains c s = true → (0 ≤ rfind c s)%Z.
Proof.
  intros Hc. destruct (Z.leb_spec 0 (rfind c s)) as [H | H]; [done |].
  apply rfind_absent in H. congruence.
Qed.

(** Nothing at or after index [k] when the last occurrence lies before. *)
Lemma rfind_before (c : ascii) (k : nat) (s : string) :
  (rfind c s < Z.of_nat k)%Z → contains c (slice_from k s) = false.
Proof.
  intros Hlt. destruct (contains c (slice_from k s)) eqn:Hc; [| done].
  apply rfind_present_nonneg in Hc.
  pose proof (rfind_app c (slice_to k s) (slice_from k s)) as Happ.
  rewrite slice_to_from in Happ.
  rewrite (proj2 (Z.leb_le 0 _)) in Happ by done.
  rewrite slice_to_length in Happ.
  pose proof (rfind_bounds c (slice_from k s)) as Hb.
  rewrite slice_from_length in Hb. lia.
Qed.

Lemma rfind_head (c : ascii) (t : string) :
  contains c t = false → rfind c (String c t) = 0%Z.
Proof.
  intros Ht. cbn [rfind]. rewrite (rfind_present c t Ht).
  by rewrite Ascii.eqb_refl.
Qed.

(** ** [get_unique_path] and the extension *)

Lemma counter_tag_plain (n : Z) :
  (0 ≤ n)%Z →
  contains "/" ("_" +:+ str n) = false ∧
  contains "." ("_" +:+ str n) = false ∧
  all_are "." ("_" +:+ str n) = false.
Proof.
  intros Hn. rewrite !contains_app. split; [| split].
  - by rewrite str_no_char.
  - by rewrite str_no_char.
  - done.
Qed.






(** ** Plain names *)

Lemma name_no_sep (path : string) : contains "/" (name path) = false.
Proof.
  unfold name. apply rfind_before.
  pose proof (rfind_bounds "/" path). lia.
Qed.

Lemma name_plain (nm : string) : contains "/" nm = false → name nm = nm.
Proof. intros H. unfold name. by rewrite (rfind_present "/" nm H). Qed.

Lemma get_unique_path_no_sep (dest_dir : gset string) (filename : string) :
  contains "/" filename = false →
  contains "/" (get_unique_path dest_dir filename) = false.
Proof.
  intros Hf. destruct (decide (filename ∈ dest_dir)) as [Hin | Hfree].
  - destruct (get_unique_path_used _ _ Hin) as (n & Hn & -> & _).
    pose proof (splitext_app filename _ _ (surjective_pairing _)) as Hp.
    rewrite <- Hp, contains_app in Hf. apply orb_false_elim in Hf as [Hb He].
    unfold suffixed. rewrite !contains_app, Hb, He, str_no_char by (lia || done).
    done.
  - by rewrite get_unique_path_unused.
Qed.

Lemma decimal_digit_is_hex (c : ascii) : is_decimal_digit c = true → is_lower_hex c = true.
Proof. destruct c as [[] [] [] [] [] [] [] []]; vm_compute; congruence. Qed.

Lemma str_forall_impl (P Q : ascii → bool) (s : string) :
  (∀ c, P c = true → Q c = true) → str_forall P s = true → str_forall Q s = true.
Proof.
  intros HPQ. induction s as [|a s IH]; [done |]. cbn [str_forall].
  intros [Ha Hs]%andb_prop. by rewrite (HPQ a Ha), IH.
Qed.

(** Whatever the algorithm and the file, a returned digest holds the
    characters [0-9a-f] only. *)
Lemma digest_charset (lib : Hashlib.Provider) (file : option (list byte))
    (algorithm digest : string) :
  compute_file_hash lib file algorithm = Ok digest →
  str_forall is_lower_hex digest = true.
Proof.
  destruct file as [data |].
  - destruct (decide (upper algorithm = "CRC32")) as [Hcrc | Hother].
    + rewrite compute_file_hash_crc32 by done. intros [= <-].
      apply (str_forall_impl is_decimal_digit); [apply decimal_digit_is_hex |].
      apply str_digits. pose proof (crc32_u32 data 0). lia.
    + rewrite compute_file_hash_hashlib by done.
      destruct (Hashlib.new _ _); [| done]. unfold Hashlib.hexdigest.
      destruct (Hashlib.is_xof _ _); [done |]. intros [= <-]. apply hex_lower.
  - unfold compute_file_hash. destruct (String.eqb _ _); [done |].
    by destruct (Hashlib.new _ _).
Qed.

Lemma digest_plain (lib : Hashlib.Provider) (file : option (list byte))
    (algorithm digest : string) :
  compute_file_hash lib file algorithm = Ok digest →
  contains "/" digest = false ∧ contains "." digest = false.
Proof.
  intros H%digest_charset.
  split; by apply (str_forall_excludes is_lower_hex).
Qed.

(** What [name_destination] returns in Mode B: a prefixed name, or
    [get_unique_path] of the name prefixed by the whole digest. *)
Lemma mode_b_shape (w : World) (args : Args) (target_dir : gset string)
    (e : Entry) (dest : string) :
  (prefix_length args ≠ 0)%Z →
  name_destination w args target_dir e = Ok dest →
  ∃ full_hash,
    compute_file_hash (hashlib w) (content e) (algorithm args) = Ok full_hash ∧
    ((∃ p, Z.abs_nat (prefix_length args) ≤ p ∧
           dest = slice_to p full_hash +:+ "_" +:+ name (file_path e)) ∨
     dest = get_unique_path target_dir (full_hash +:+ "_" +:+ name (file_path e))).
Proof.
  intros HL. unfold name_destination.
  rewrite (proj2 (Z.eqb_neq _ _)) by done. cbn [negb].
  destruct (compute_file_hash _ _ _) as [full_hash | err]; [| done].
  cbn. intros [= <-]. exists full_hash. split; [done |].
  destruct (prefix_loop_shape target_dir full_hash (name (file_path e))
              (Z.abs_nat (prefix_length args))) as (k & _ & _ & _ & Hend).
  destruct (fell_back _).
  - right. tauto.
  - left. exists (Z.abs_nat (prefix_length args) + k). split; [lia |]. tauto.
Qed.

(** X2. A destination is always a plain entry name: it contains no path
    separator, so (being its own final component) it lies directly in
    the target directory, whatever the file name, the digest and the
    collisions. *)
Theorem destination_plain_name (w : World) (args : Args) (target_dir : gset string)
    (e : Entry) (dest : string) :
  name_destination w args target_dir e = Ok dest →
  contains "/" dest = false ∧ name dest = dest.
Proof.
  intros Hdest.
  assert (contains "/" dest = false) as Hplain; [| by split; [| apply name_plain]].
  pose proof (name_no_sep (file_path e)) as Hname.
  destruct (decide (prefix_length args = 0)%Z) as [HL | HL].
  - unfold name_destination in Hdest. rewrite HL in Hdest. cbn in Hdest.
    injection Hdest as <-. by apply get_unique_path_no_sep.
  - destruct (mode_b_shape _ _ _ _ _ HL Hdest) as (full_hash & Hhash & Hshape).
    apply digest_plain in Hhash as [Hsep _].
    assert (∀ p, contains "/" (slice_to p full_hash +:+ "_" +:+ name (file_path e)) = false)
      as Hcand.
    { intros p. by rewrite !contains_app, contains_slice_to, Hname. }
    destruct Hshape as [(p & _ & ->) | ->]; [apply Hcand |].
    apply get_unique_path_no_sep. by rewrite !contains_app, Hsep, Hname.
Qed.

Lemma destination_plain_name_witness :
  name_destination calm (sample_args 2) {["39_a.b.txt"]}
    (sample_file "/src/deep/down/a.b.txt" "a") = Ok "390_a.b.txt" ∧
  contains "/" "390_a.b.txt" = false ∧ name "390_a.b.txt" = "390_a.b.txt".
Proof.
  split; [reflexivity |].
  exact (destination_plain_name calm (sample_args 2) {["39_a.b.txt"]}
           (sample_file "/src/deep/down/a.b.txt" "a") "390_a.b.txt" eq_refl).
Defined.

(** ** Suffixes of destinations *)

Lemma app_nonempty_r (s t : string) : t ≠ "" → s +:+ t ≠ "".
Proof.
  intros Ht H. apply (f_equal String.length) in H.
  rewrite str_length_app in H. destruct t; [done | simpl in H; lia].
Qed.

Lemma length_pos_nonempty (s : string) : s ≠ "" → 0 < String.length s.
Proof. destruct s; [done | simpl; lia]. Qed.

(** A plain name made of a non-empty stem and a one-dot ending has that
    ending as its suffix. *)
Lemma suffix_append_ext (B t : string) :
  B ≠ "" → t ≠ "" →
  contains "/" B = false → contains "/" t = false → contains "." t = false →
  suffix (B +:+ String "." t) = String "." t.
Proof.
  intros HB Ht HsB Hst Hdt. unfold suffix.
  rewrite name_plain by (rewrite contains_app; cbn [contains]; by rewrite HsB, Hst).
  rewrite rfind_app, (rfind_head "." t Hdt). cbn [Z.leb Z.compare].
  rewrite Z.add_0_r, Nat2Z.id, str_length_app. cbn [String.length].
  apply length_pos_nonempty in HB. apply length_pos_nonempty in Ht.
  rewrite (proj2 (Z.ltb_lt _ _)) by lia. rewrite (proj2 (Z.ltb_lt _ _)) by lia.
  cbn [andb]. apply slice_from_app_length.
Qed.

(** [os.path.splitext] cuts such a name at the same place, unless the
    stem is made of dots. *)
Lemma splitext_append_ext (B t : string) :
  contains "/" B = false → contains "/" t = false → contains "." t = false →
  splitext (B +:+ String "." t)
  = if all_are "." B then (B +:+ String "." t, "") else (B, String "." t).
Proof.
  intros HsB Hst Hdt. unfold splitext.
  rewrite (rfind_present "/" (B +:+ String "." t))
    by (rewrite contains_app; cbn [contains]; by rewrite HsB, Hst).
  rewrite rfind_app, (rfind_head "." t Hdt). cbn [Z.leb Z.compare].
  rewrite Z.add_0_r, Nat2Z.id.
  rewrite (proj2 (Z.ltb_lt _ _)) by lia.
  change (Z.to_nat (-1 + 1)) with 0. rewrite Nat.sub_0_r.
  replace (slice_from 0 (B +:+ String "." t)) with (B +:+ String "." t)
    by (by destruct (B +:+ String "." t)).
  by rewrite slice_to_app_length, slice_from_app_length.
Qed.

(** A path with a suffix: its name is a non-empty stem followed by the
    suffix. *)
Lemma suffix_split (path : string) :
  suffix path ≠ "" →
  ∃ stem t,
    name path = stem +:+ String "." t ∧ suffix path = String "." t ∧
    stem ≠ "" ∧ t ≠ "" ∧
    contains "/" stem = false ∧ contains "/" t = false ∧ contains "." t = false.
Proof.
  intros Hs. unfold suffix in *.
  destruct (_ && _) eqn:Hi; [| done].
  apply andb_prop in Hi as [Hpos Hend].
  apply Z.ltb_lt in Hpos. apply Z.ltb_lt in Hend.
  set (nm := name path) in *. set (i := Z.to_nat (rfind "." nm)) in *.
  destruct (rfind_tail "." nm) as (t & Ht & Hdt); [lia |]. fold i in Ht.
  pose proof (name_no_sep path) as Hsep. fold nm in Hsep.
  rewrite <- (slice_to_from i nm), Ht, contains_app in Hsep.
  apply orb_false_elim in Hsep as [Hs1 Hs2]. cbn [contains] in Hs2.
  exists (slice_to i nm), t. split; [by rewrite <- Ht, slice_to_from |].
  split; [done |]. split; [| split; [| done]].
  - intros Hempty. apply (f_equal String.length) in Hempty.
    rewrite slice_to_length in Hempty. simpl in Hempty. lia.
  - intros ->. apply (f_equal String.length) in Ht.
    rewrite slice_from_length in Ht. simpl in Ht. lia.
Qed.

Lemma selected_has_suffix (args : Args) (e : Entry) :
  selected args e = true → suffix (file_path e) ≠ "".
Proof.
  intros [_ Hm]%andb_prop Hs. apply match_ext_true in Hm.
  rewrite Hs in Hm. apply (f_equal String.length) in Hm.
  unfold lower in Hm. rewrite str_map_length in Hm.
  pose proof (normalize_ext_nonempty (extension args)) as Hne.
  destruct (normalize_ext (extension args)); [done | discriminate Hm].
Qed.

Lemma same_suffix_same_match (args : Args) (path path' : string) :
  suffix path' = suffix path → match_ext args path' = match_ext args path.
Proof. intros H. unfold match_ext. by rewrite H. Qed.

(** [get_unique_path] on a plain name whose stem is not made of dots
    keeps the suffix. *)
Lemma get_unique_path_suffix (dest_dir : gset string) (B t : string) :
  all_are "." B = false → t ≠ "" →
  contains "/" B = false → contains "/" t = false → contains "." t = false →
  suffix (get_unique_path dest_dir (B +:+ String "." t)) = String "." t.
Proof.
  intros Hdots Ht HsB Hst Hdt.
  assert (B ≠ "") as HB by (intros ->; discriminate Hdots).
  destruct (decide (B +:+ String "." t ∈ dest_dir)) as [Hin | Hfree].
  - destruct (get_unique_path_used _ _ Hin) as (n & Hn & -> & _).
    rewrite splitext_append_ext, Hdots by done. cbn [fst snd]. unfold suffixed.
    rewrite <- !app_assoc_str. rewrite (app_assoc_str B).
    apply suffix_append_ext; try done.
    + apply app_nonempty_r. by rewrite app_cons.
    + destruct (counter_tag_plain n) as (Hsep & _); [lia |].
      by rewrite contains_app, HsB, Hsep.
  - rewrite get_unique_path_unused by done. by apply suffix_append_ext.
Qed.

(** X3. In Mode B a selected file keeps its suffix: whatever the prefix
    length reached and whether or not the numeric-suffix fallback was
    taken, the destination has the suffix of the source file, so it is
    still matched by the extension the file was selected by. *)
Theorem mode_b_keeps_suffix (w : World) (args : Args) (target_dir : gset string)
    (e : Entry) (dest : string) :
  selected args e = true →
  (prefix_length args ≠ 0)%Z →
  name_destination w args target_dir e = Ok dest →
  suffix dest = suffix (file_path e) ∧ match_ext args dest = true.
Proof.
  intros Hsel HL Hdest.
  assert (suffix dest = suffix (file_path e)) as Hsame.
  { destruct (suffix_split _ (selected_has_suffix _ _ Hsel))
      as (stem & t & Hname & -> & Hstem & Ht & Hs1 & Hs2 & Hdt).
    destruct (mode_b_shape _ _ _ _ _ HL Hdest) as (full_hash & Hhash & Hshape).
    apply digest_plain in Hhash as [HsD _]. rewrite Hname in Hshape.
    assert (∀ A, contains "/" A = false →
                 A +:+ "_" +:+ stem +:+ String "." t
                 = (A +:+ "_" +:+ stem) +:+ String "." t ∧
                 all_are "." (A +:+ "_" +:+ stem) = false ∧
                 contains "/" (A +:+ "_" +:+ stem) = false) as Hparts.
    { intros A HA. split; [by rewrite !app_assoc_str |]. split.
      - by rewrite all_are_app, app_cons, andb_false_r.
      - by rewrite !contains_app, HA, Hs1. }
    destruct Hshape as [(p & _ & ->) | ->].
    - destruct (Hparts (slice_to p full_hash)) as (-> & Hdots & Hsep);
        [by apply contains_slice_to |].
      apply suffix_append_ext; try done. intros Hempty.
      rewrite Hempty in Hdots. discriminate Hdots.
    - destruct (Hparts full_hash HsD) as (-> & Hdots & Hsep).
      by apply get_unique_path_suffix. }
  split; [done |].
  rewrite (same_suffix_same_match args (file_path e) dest Hsame).
  by apply andb_prop in Hsel as [_ ?].
Qed.

Lemma mode_b_keeps_suffix_witness :
  name_destination calm (sample_args 10) {["3904355907_notes.v2.TXT"]}
    (sample_file "/src/notes.v2.TXT" "a") = Ok "3904355907_notes.v2_1.TXT" ∧
  suffix "3904355907_notes.v2_1.TXT" = suffix "/src/notes.v2.TXT" ∧
  match_ext (sample_args 10) "3904355907_notes.v2_1.TXT" = true.
Proof.
  split; [reflexivity |].
  refine (mode_b_keeps_suffix calm (sample_args 10) {["3904355907_notes.v2.TXT"]}
            (sample_file "/src/notes.v2.TXT" "a") "3904355907_notes.v2_1.TXT" _ _ _).
  - reflexivity.
  - discriminate.
  - reflexivity.
Defined.

(** X4. In Mode A a selected file keeps its suffix, and stays matched by
    the extension, as long as [os.path.splitext] sees an extension in
    its name. It sees none when only dots precede the last dot
    ([..txt]): such a file, when its name is taken, gets the counter
    after the suffix and is no longer matched by the extension. *)
Theorem mode_a_suffix (w : World) (args : Args) (target_dir : gset string)
    (e : Entry) (dest : string) :
  selected args e = true →
  (prefix_length args = 0)%Z →
  name_destination w args target_dir e = Ok dest →
  ((splitext (name (file_path e))).2 ≠ "" →
   suffix dest = suffix (file_path e) ∧ match_ext args dest = true) ∧
  ((splitext (name (file_path e))).2 = "" →
   name (file_path e) ∈ target_dir →
   match_ext args dest = false).
Proof.
  intros Hsel HL Hdest.
  unfold name_destination in Hdest. rewrite HL in Hdest. cbn in Hdest.
  injection Hdest as <-.
  destruct (suffix_split _ (selected_has_suffix _ _ Hsel))
    as (stem & t & Hname & Hsuf & Hstem & Ht & Hs1 & Hs2 & Hdt).
  rewrite Hname, Hsuf. rewrite splitext_append_ext by done.
  destruct (all_are "." stem) eqn:Hdots; cbn [snd]; split; try done.
  - intros _ Hin.
    destruct (get_unique_path_used _ _ Hin) as (n & Hn & -> & _).
    rewrite splitext_append_ext, Hdots by done. cbn [fst snd]. unfold suffixed.
    rewrite app_empty_r, app_assoc_str, app_cons.
    destruct (counter_tag_plain n) as (Hsep & Hdot & _); [lia |].
    destruct (match_ext args _) eqn:Hm; [| done]. exfalso.
    apply match_ext_true in Hm.
    apply andb_prop in Hsel as [_ Hsel]. apply match_ext_true in Hsel.
    rewrite <- Hsel, Hsuf in Hm.
    rewrite suffix_append_ext in Hm; try done.
    + apply (f_equal String.length) in Hm. unfold lower in Hm.
      rewrite !str_map_length in Hm. cbn [String.length] in Hm.
      rewrite str_length_app, app_cons in Hm. cbn [String.length] in Hm. lia.
    + by apply app_nonempty_r; rewrite app_cons.
    + by rewrite contains_app, Hs2.
    + by rewrite contains_app, Hdt.
  - intros _. assert (suffix (get_unique_path target_dir (stem +:+ String "." t))
                      = String "." t) as Hsame
      by by apply get_unique_path_suffix.
    split; [done |].
    rewrite (same_suffix_same_match args (file_path e)) by (by rewrite Hsame, Hsuf).
    by apply andb_prop in Hsel as [_ ?].
Qed.

Lemma mode_a_suffix_witness :
  name_destination calm (sample_args 0) {["a.txt"]} (sample_file "/src/a.txt" "x")
  = Ok "a_1.txt" ∧
  match_ext (sample_args 0) "a_1.txt" = true ∧
  name_destination calm (sample_args 0) {["..txt"]} (sample_file "/src/..txt" "x")
  = Ok "..txt_1" ∧
  match_ext (sample_args 0) "..txt_1" = false.
Proof.
  split; [reflexivity |]. split; [| split; [reflexivity |]].
  - refine (proj2 (proj1 (mode_a_suffix calm (sample_args 0) {["a.txt"]}
                            (sample_file "/src/a.txt" "x") "a_1.txt" _ _ _) _)).
    + reflexivity.
    + reflexivity.
    + reflexivity.
    + discriminate.
  - refine (proj2 (mode_a_suffix calm (sample_args 0) {["..txt"]}
                     (sample_file "/src/..txt" "x") "..txt_1" _ _ _) _ _).
    + reflexivity.
    + reflexivity.
    + reflexivity.
    + reflexivity.
    + by vm_compute.
Defined.

(** ** The digest prefix *)

(** The stem of a name that starts with a dot-free part starts with
    that part. *)
Lemma splitext_stem_prefix (pre nm : string) :
  contains "." pre = false →
  ∃ rest, (splitext (pre +:+ nm)).1 = pre +:+ rest.
Proof.
  intros Hpre. unfold splitext.
  destruct (Z.ltb_spec (rfind "/" (pre +:+ nm)) (rfind "." (pre +:+ nm))) as [Hlt | _];
    [| by exists nm].
  destruct (all_are "." _); [by exists nm |]. cbn [fst].
  pose proof (rfind_bounds "/" (pre +:+ nm)) as Hb.
  rewrite (rfind_app "." pre nm) in Hlt |- *.
  destruct (Z.leb_spec 0 (rfind "." nm)) as [Hnm | Hnm].
  - exists (slice_to (Z.to_nat (rfind "." nm)) nm).
    replace (Z.to_nat (Z.of_nat (String.length pre) + rfind "." nm))
      with (String.length pre + Z.to_nat (rfind "." nm)) by lia.
    apply slice_to_app_ge.
  - rewrite (rfind_present "." pre Hpre) in Hlt. lia.
Qed.

(** X5. In Mode B every destination starts with a prefix of the file's
    digest that is at least |L| characters long (the whole digest when
    it is shorter), followed by an underscore; this holds in the
    numeric-suffix fallback too, where the counter goes behind the
    digest. *)
Theorem mode_b_digest_prefix (w : World) (args : Args) (target_dir : gset string)
    (e : Entry) (dest : string) :
  (prefix_length args ≠ 0)%Z →
  name_destination w args target_dir e = Ok dest →
  ∃ full_hash p rest,
    compute_file_hash (hashlib w) (content e) (algorithm args) = Ok full_hash ∧
    Z.abs_nat (prefix_length args) ≤ p ∧
    dest = slice_to p full_hash +:+ "_" +:+ rest.
Proof.
  intros HL Hdest.
  destruct (mode_b_shape _ _ _ _ _ HL Hdest) as (full_hash & Hhash & Hshape).
  exists full_hash.
  destruct Hshape as [(p & Hp & ->) | ->].
  - by exists p, (name (file_path e)).
  - set (nm := name (file_path e)).
    set (p := Z.abs_nat (prefix_length args) + String.length full_hash).
    assert (slice_to p full_hash = full_hash) as Hall
      by (apply slice_to_all; unfold p; lia).
    destruct (decide (full_hash +:+ "_" +:+ nm ∈ target_dir)) as [Hin | Hfree].
    + destruct (get_unique_path_used _ _ Hin) as (n & _ & -> & _).
      destruct (splitext_stem_prefix (full_hash +:+ "_") nm) as [rest Hrest].
      { apply digest_plain in Hhash as [_ Hdot]. by rewrite contains_app, Hdot. }
      rewrite app_assoc_str in Hrest. rewrite Hrest.
      exists p, (rest +:+ "_" +:+ str n +:+ (splitext (full_hash +:+ "_" +:+ nm)).2).
      split; [done |]. split; [unfold p; lia |].
      rewrite Hall. unfold suffixed. by rewrite !app_assoc_str.
    + rewrite get_unique_path_unused by done.
      exists p, nm. split; [done |]. split; [unfold p; lia |]. by rewrite Hall.
Qed.

Lemma mode_b_digest_prefix_witness :
  name_destination calm (sample_args 4) {["3904355907_a.txt"; "3904_a.txt"; "39043_a.txt"]}
    (sample_file "/src/a.txt" "a") = Ok "390435_a.txt" ∧
  ∃ full_hash p rest,
    compute_file_hash bare_hashlib (Some (list_byte_of_string "a")) "crc32"
    = Ok full_hash ∧
    4 ≤ p ∧ "390435_a.txt" = slice_to p full_hash +:+ "_" +:+ rest.
Proof.
  split; [reflexivity |].
  refine (mode_b_digest_prefix calm (sample_args 4)
            {["3904355907_a.txt"; "3904_a.txt"; "39043_a.txt"]}
            (sample_file "/src/a.txt" "a") "390435_a.txt" _ _).
  - discriminate.
  - reflexivity.
Defined.

(** ** Whole runs *)





Lemma env_of_world_exact (w : World) (args : Args) :
  move args = false → placement_exact (env_of_world w args).
Proof.
  intros Hcopy flag e dest target_dir. cbn [env_of_world shutil].
  unfold after_removal. rewrite Hcopy. cbn [andb].
  destruct (shutil_error w flag e dest target_dir) as [err |];
    [right; by exists err | by left].
Qed.

(** X8. Nothing is overwritten and nothing is lost in surroundings where
    a successful placement adds its destination, and nothing else, to
    the names the existence test sees, and a failed one leaves them as
    they were: no printed destination was an entry of the directory at
    the start, each is one at the end, the entries of the start are all
    still there, and the directory has grown by exactly the count the
    run has reached, however it ends. *)
Theorem target_grows_by_count (env : Env) (args : Args) (target_dir : gset string)
    (entries : list Entry) :
  placement_exact env →
  let st := run_state (Full.main env args target_dir entries) in
  (∀ e dest, Success e dest ∈ printed st → (dest ∉ target_dir) ∧ dest ∈ target st) ∧
  target_dir ⊆ target st ∧
  Z.of_nat (size (target st)) = (Z.of_nat (size target_dir) + processed_files st)%Z.
Proof.
  intros Hexact st.
  assert (grow_inv target_dir st) as (Hsub & Hsize & Hmem).
  { unfold st. rewrite full_main_state. apply full_main_loop_inv.
    - intros st' e. by apply full_loop_body_grow_inv.
    - split; [done |]. split; [cbn; lia |].
      intros dest Hd. by apply elem_of_nil in Hd. }
  split; [| done].
  intros e dest Hin. destruct (Hmem dest) as [Hnow Hnew]; [| done].
  apply list_elem_of_omap. by exists (Success e dest).
Qed.

Lemma target_grows_by_count_witness :
  target (run_state (Full.main (env_of_world flaky (sample_args 1)) (sample_args 1)
                       {["3_a.txt"]} sample_run))
  = {["3_a.txt"; "39_a.txt"; "3_a.TXT"]} ∧
  Z.of_nat (size (target (run_state
                            (Full.main (env_of_world flaky (sample_args 1))
                               (sample_args 1) {["3_a.txt"]} sample_run))))
  = (Z.of_nat (size ({["3_a.txt"]} : gset string))
     + processed_files
         (run_state (Full.main (env_of_world flaky (sample_args 1)) (sample_args 1)
                       {["3_a.txt"]} sample_run)))%Z.
Proof.
  split; [by vm_compute |].
  exact (proj2 (proj2 (target_grows_by_count (env_of_world flaky (sample_args 1))
                         (sample_args 1) {["3_a.txt"]} sample_run
                         (env_of_world_exact flaky (sample_args 1) eq_refl)))).
Defined.






(** ** The command line *)

Lemma startswith_dot_lower (x : string) : startswith_dot (lower x) = startswith_dot x.
Proof. destruct x as [|a x]; [done |]. cbn. apply ascii_lower_dot. Qed.

Lemma lower_normalize_ext (x : string) : lower (normalize_ext x) = normalize_ext (lower x).
Proof.
  unfold normalize_ext. rewrite startswith_dot_lower.
  destruct (startswith_dot x); [done |]. by rewrite !app_cons, !app_empty_l.
Qed.

(** X11. How the [-E] and [-C] options select. The leading dot of the
    extension is optional ([txt] and [.txt] select the same files);
    [-C] only narrows the selection; and without [-C] two spellings of
    the extension that differ in letter case select the same files. *)
Theorem extension_option_forms (args : Args) (e : Entry) (x y : string) :
  (startswith_dot x = false →
   selected (with_extension args ("." +:+ x)) e = selected (with_extension args x) e) ∧
  (selected (with_case_sensitive args true) e = true →
   selected (with_case_sensitive args false) e = true) ∧
  (lower x = lower y →
   selected (with_case_sensitive (with_extension args x) false) e
   = selected (with_case_sensitive (with_extension args y) false) e).
Proof.
  split; [| split].
  - intros Hx. unfold selected, match_ext, normalize_ext.
    cbn [extension with_extension case_sensitive].
    rewrite Hx, app_cons, app_empty_l. cbn [startswith_dot].
    by rewrite Ascii.eqb_refl.
  - unfold selected, match_ext. cbn [extension case_sensitive with_case_sensitive].
    intros [Hfile Heq]%andb_prop. apply String.eqb_eq in Heq.
    by rewrite Hfile, Heq, String.eqb_refl.
  - intros Hxy. unfold selected, match_ext.
    cbn [extension case_sensitive with_case_sensitive with_extension].
    by rewrite !lower_normalize_ext, Hxy.
Qed.

Lemma extension_option_forms_witness :
  selected (with_extension (sample_args 0) ".txt") (sample_file "/src/a.TXT" "a")
  = selected (with_extension (sample_args 0) "txt") (sample_file "/src/a.TXT" "a") ∧
  selected (with_case_sensitive (with_extension (sample_args 0) "TxT") false)
           (sample_file "/src/a.TXT" "a")
  = selected (with_case_sensitive (with_extension (sample_args 0) "txt") false)
             (sample_file "/src/a.TXT" "a") ∧
  selected (with_case_sensitive (with_extension (sample_args 0) "TXT") false)
           (sample_file "/src/a.TXT" "a") = true.
Proof.
  pose proof (extension_option_forms (sample_args 0) (sample_file "/src/a.TXT" "a")
                "txt" "txt") as (Hdot & _ & _).
  pose proof (extension_option_forms (sample_args 0) (sample_file "/src/a.TXT" "a")
                "TxT" "txt") as (_ & _ & Hcase).
  pose proof (extension_option_forms (with_extension (sample_args 0) "TXT")
                (sample_file "/src/a.TXT" "a") "" "") as (_ & Hnarrow & _).
  split; [exact (Hdot eq_refl) |]. split; [exact (Hcase eq_refl) |].
  exact (Hnarrow eq_refl).
Defined.

Lemma loop_body_sign (w : World) (args : Args) (L : Z) (st : State) (e : Entry) :
  loop_body w (with_prefix_length args (- L)) st e
  = loop_body w (with_prefix_length args L) st e.
Proof.
  unfold loop_body, process_file, name_destination, place, after_removal,
    selected, match_ext, in_target.
  cbn [prefix_length extension case_sensitive algorithm move target_dir_path
       with_prefix_length].
  replace (- L =? 0)%Z with (L =? 0)%Z
    by (destruct (Z.eqb_spec L 0), (Z.eqb_spec (- L) 0); lia || done).
  replace (Z.abs_nat (- L)) with (Z.abs_nat L) by lia. done.
Qed.

(** X12. The sign of the prefix length is ignored: a run with [-P -n]
    ends in the same directory, count and printed lines as the run with
    [-P n]. *)
Theorem prefix_length_sign_ignored (w : World) (args : Args) (L : Z)
    (target_dir : gset string) (entries : list Entry) :
  main w (with_prefix_length args (- L)) target_dir entries
  = main w (with_prefix_length args L) target_dir entries.
Proof.
  unfold main. generalize {| target := target_dir; processed_files := 0; printed := [] |}.
  induction entries as [|e entries IH]; intros st; [done |].
  cbn [fold_left]. by rewrite loop_body_sign, IH.
Qed.



(** ** Blocks and counters *)

Lemma block_count_step (B n : nat) :
  0 < B → 0 < n → S (((n - B) + (B - 1)) / B) = (n + (B - 1)) / B.
Proof.
  intros HB Hn. destruct (decide (n ≤ B)) as [Hle | Hgt].
  - replace (n - B) with 0 by lia. rewrite Nat.div_small by lia.
    apply (Nat.div_unique _ _ _ (n - 1)); lia.
  - replace (n + (B - 1)) with ((n - B) + (B - 1) + 1 * B) by lia.
    rewrite Nat.div_add by lia. lia.
Qed.

(** X14. The streamed reads cut a file into blocks without losing or
    reordering a byte: the blocks concatenate to the content, none is
    empty or longer than 4096 bytes, every block but the last has
    exactly 4096 bytes, and there are ceil(len / 4096) of them. *)
Theorem read_chunks_blocks (data : list byte) :
  concat (read_chunks data) = data ∧
  Forall (λ c, 0 < length c ≤ BLOCK) (read_chunks data) ∧
  (∀ i c, read_chunks data !! i = Some c →
          S i < length (read_chunks data) → length c = BLOCK) ∧
  length (read_chunks data) = (length data + (BLOCK - 1)) / BLOCK.
Proof.
  split; [apply read_chunks_concat |]. split; [apply read_chunks_block |].
  assert (0 < BLOCK) as HB by (unfold BLOCK; lia).
  apply (read_chunks_elim (λ d r,
    (∀ i c, r !! i = Some c → S i < length r → length c = BLOCK) ∧
    length r = (length d + (BLOCK - 1)) / BLOCK)).
  - split; [by intros i c Hc | ]. cbn [length]. rewrite Nat.div_small; lia.
  - intros b data' [IHfull IHcount]. split.
    + intros [|i] c Hc Hlast.
      * change (Some (take BLOCK (b :: data')) = Some c) in Hc.
        assert (c = take BLOCK (b :: data')) as -> by congruence.
        rewrite length_take.
        cbn [length] in Hlast. rewrite IHcount, length_drop in Hlast.
        destruct (decide (length (b :: data') ≤ BLOCK)) as [Hle | Hgt]; [| lia].
        replace (length (b :: data') - BLOCK) with 0 in Hlast by lia.
        rewrite Nat.div_small in Hlast; lia.
      * change (read_chunks (drop BLOCK (b :: data')) !! i = Some c) in Hc.
        apply (IHfull i c Hc). cbn [length] in Hlast. lia.
    + cbn [length]. rewrite IHcount, length_drop.
      apply (block_count_step BLOCK (S (length data'))); lia.
Qed.



Lemma read_chunks_blocks_witness :
  length (read_chunks (repeat "000"%byte 5000)) = 2 ∧
  (∀ c, read_chunks (repeat "000"%byte 5000) !! 0 = Some c → length c = BLOCK).
Proof.
  pose proof (read_chunks_blocks (repeat "000"%byte 5000)) as (_ & _ & Hfull & Hcount).
  split; [by vm_compute |].
  intros c Hc. apply (Hfull 0 c Hc). rewrite Hcount. by vm_compute.
Defined.

Lemma get_unique_path_length (dest_dir : gset string) (filename : string) :
  String.length filename ≤ String.length (get_unique_path dest_dir filename).
Proof.
  destruct (decide (filename ∈ dest_dir)) as [Hin | Hfree].
  - destruct (get_unique_path_used _ _ Hin) as (n & _ & -> & _).
    pose proof (suffixed_longer (splitext filename).1 (splitext filename).2 n) as Hlt.
    rewrite (splitext_app filename _ _ (surjective_pairing _)) in Hlt. lia.
  - by rewrite get_unique_path_unused.
Qed.

(** X16. A file never keeps its name in Mode B: the destination is
    longer than the file's name by at least the underscore and the
    first |L| characters of the digest (the whole digest when shorter).
    So running the script again over files it has already prefixed
    prefixes them once more. *)
Theorem mode_b_name_grows (w : World) (args : Args) (target_dir : gset string)
    (e : Entry) (dest : string) :
  (prefix_length args ≠ 0)%Z →
  name_destination w args target_dir e = Ok dest →
  ∃ full_hash,
    compute_file_hash (hashlib w) (content e) (algorithm args) = Ok full_hash ∧
    String.length (name (file_path e)) + 1
    + Z.abs_nat (prefix_length args) `min` String.length full_hash
    ≤ String.length dest ∧
    dest ≠ name (file_path e).
Proof.
  intros HL Hdest.
  destruct (mode_b_shape _ _ _ _ _ HL Hdest) as (full_hash & Hhash & Hshape).
  exists full_hash. split; [done |].
  assert (String.length (name (file_path e)) + 1
          + Z.abs_nat (prefix_length args) `min` String.length full_hash
          ≤ String.length dest) as Hlen.
  { destruct Hshape as [(p & Hp & ->) | ->].
    - rewrite !str_length_app, slice_to_length. simpl. lia.
    - pose proof (get_unique_path_length target_dir
                    (full_hash +:+ "_" +:+ name (file_path e))) as Hle.
      rewrite !str_length_app in Hle. simpl in Hle. lia. }
  split; [done |]. intros ->. lia.
Qed.

Lemma mode_b_name_grows_witness :
  name_destination calm (sample_args 3) ∅ (sample_file "/src/out/390_a.txt" "a")
  = Ok "390_390_a.txt" ∧
  "390_390_a.txt" ≠ name "/src/out/390_a.txt".
Proof.
  split; [reflexivity |].
  destruct (mode_b_name_grows calm (sample_args 3) ∅
              (sample_file "/src/out/390_a.txt" "a") "390_390_a.txt")
    as (full_hash & _ & _ & Hne).
  - discriminate.
  - reflexivity.
  - exact Hne.
Defined.
